(** * Stowrage: an in-process keyed store with a name index and an id index

    A shallow embedding of [src/stowrage.ts].  The class [Stowrage] keeps two
    JavaScript [Map]s (#DB: name -> entry, #IDMap: id -> name), an id counter
    (#id), an optional SQLite handle (#SQLDB) and the public fields
    [maxEntries], [name] and [isPersistent] ([path] only names the directory
    of the database file, whose contents [init] takes as an argument).
    Methods are embedded as computations in a state-and-exception monad over
    the instance's fields: a [throw] keeps whatever the method had already
    written, exactly as a JavaScript exception does.

    The file has two parts: the definitions, then the lemmas and theorems. *)

From Stdlib Require Import ZArith List String Bool Lia Permutation.
Import ListNotations.

Local Open Scope Z_scope.
Local Open Scope string_scope.

(** ** JavaScript values

    [DataType] defaults to [unknown]: any JavaScript value can be stored.
    Numbers are the integers (ids, counts and range bounds are integers below
    2^53, where double arithmetic is exact).  An object is the record of its
    own properties in insertion order together with its prototype: [JObj] is
    a plain object (an object literal, the result of [JSON.parse]), whose
    prototype is [Object.prototype]; [JObjProto proto props] is an object
    whose prototype is the object [proto], or none when [proto] is [null].
    Arrays and functions are not values of the model, and a value stands for
    itself: two entries that were given one and the same object are two
    values here. *)

#[warnings="-register-all"]
Inductive JsValue : Type :=
| JUndefined
| JNull
| JBool (b : bool)
| JNum (n : Z)
| JStr (s : string)
| JObj (props : list (string * JsValue))
| JObjProto (proto : JsValue) (props : list (string * JsValue)).

(** [typeof v === "object"]: true of objects and of [null]. *)
Definition typeof_object (v : JsValue) : bool :=
  match v with
  | JNull | JObj _ | JObjProto _ _ => true
  | _ => false
  end.

(** [typeof v === "undefined"]. *)
Definition typeof_undefined (v : JsValue) : bool :=
  match v with
  | JUndefined => true
  | _ => false
  end.

(** Truthiness of a [string | undefined]: [undefined] and the empty string
    are falsy. *)
Definition truthy_string (o : option string) : bool :=
  match o with
  | Some s => negb (s =? "")
  | None => false
  end.

(** The narrowing [if (name) ...] performs on a [string | undefined]: the
    string when it is truthy. *)
Definition truthy_name (o : option string) : option string :=
  match o with
  | Some s => if s =? "" then None else Some s
  | None => None
  end.

(** Truthiness of a [number | undefined]: [undefined] and [0] are falsy. *)
Definition truthy_number (o : option Z) : bool :=
  match o with
  | Some n => negb (n =? 0)%Z
  | None => false
  end.

(** Truthiness of a [boolean | undefined]. *)
Definition truthy_boolean (o : option bool) : bool :=
  match o with
  | Some b => b
  | None => false
  end.

(** ** JavaScript [Map]

    A [Map] iterates in insertion order; [set] on a key already present
    keeps its position, [delete] removes it.  Keys are compared by
    SameValueZero, which on strings and integers is equality. *)

Class JsKey (K : Type) : Type := {
  key_eqb : K -> K -> bool;
  key_eqb_spec : forall a b : K, reflect (a = b) (key_eqb a b)
}.

#[export] Instance JsKey_string : JsKey string :=
  {| key_eqb := String.eqb; key_eqb_spec := String.eqb_spec |}.

#[export] Instance JsKey_number : JsKey Z :=
  {| key_eqb := Z.eqb; key_eqb_spec := Z.eqb_spec |}.

Section JsMap.
Context {K V : Type} `{JsKey K}.

Definition JsMap : Type := list (K * V).

Fixpoint Map_get (k : K) (m : JsMap) : option V :=
  match m with
  | [] => None
  | (k', v) :: rest => if key_eqb k k' then Some v else Map_get k rest
  end.

Definition Map_has (k : K) (m : JsMap) : bool :=
  match Map_get k m with
  | Some _ => true
  | None => false
  end.

Fixpoint Map_set (k : K) (v : V) (m : JsMap) : JsMap :=
  match m with
  | [] => [(k, v)]
  | (k', v') :: rest =>
      if key_eqb k k' then (k, v) :: rest else (k', v') :: Map_set k v rest
  end.

Definition Map_delete (k : K) (m : JsMap) : JsMap :=
  filter (fun kv => negb (key_eqb k (fst kv))) m.

Definition Map_clear (m : JsMap) : JsMap := [].

Definition Map_size (m : JsMap) : Z := Z.of_nat (List.length m).

Definition Map_entries (m : JsMap) : list (K * V) := m.

Definition Map_values (m : JsMap) : list V := map snd m.

Definition Map_keys (m : JsMap) : list K := map fst m.

(** [new Map(iterable)]: the pairs are [set] one after the other. *)
Definition Map_new (l : list (K * V)) : JsMap :=
  fold_left (fun m kv => Map_set (fst kv) (snd kv) m) l [].
End JsMap.

Arguments JsMap : clear implicits.

(** ** Entries, errors, the mirror table *)

(** Modelled from the spec: [typings.ts] is not among the sources.
    [DataBase<DataType>] is the entry [{ id, name, data }] that
    [generateEntry] builds. *)
Module DataBase.
Record t : Type := mk { id : Z; name : string; data : JsValue }.
End DataBase.

(** Modelled from the spec: [typings.ts] is not among the sources.
    [ChangeValueOptions] is [{ key?, value }]. *)
Record ChangeValueOptions : Type := {
  key : option string;
  value : JsValue
}.

(** Modelled from the spec: [typings.ts] is not among the sources.
    [StowrageOptions] is [{ maxEntries?, name?, persistent? }]. *)
Record StowrageOptions : Type := {
  opt_maxEntries : option Z;
  opt_name : option string;
  opt_persistent : option bool
}.

(** Modelled from the spec: [error.ts] is not among the sources.  Each error
    class is a constructor that carries the arguments of its [new].  The
    argument of [IDNotFoundError] is optional because [setValue] can pass
    [undefined] to it.  [TypeError] is the runtime's own error for a
    property read on [undefined] or [null]. *)
Inductive Error : Type :=
| NameDuplicationError (name : string)
| NameNotFoundError (name : string)
| IDNotFoundError (id : option Z)
| KeyUndefinedError
| InvalidKeyError (key : string) (store : string)
| nonPersistentError (store : string) (action : string)
| TypeError.

(** The text of the [data] column: [JSON.stringify] of a value, represented
    by the value [JSON.parse] gives back for it.  [JSON.stringify(undefined)]
    is [undefined], which is bound as SQL NULL. *)
Inductive SqlText : Type :=
| SqlNull
| SqlJson (v : JsValue).

(** What survives [JSON.stringify]: the own properties of an object, those
    holding [undefined] left out; the result of [JSON.parse] is a plain
    object. *)
Fixpoint json_image (v : JsValue) : JsValue :=
  match v with
  | JObj props =>
      JObj ((fix image_props (l : list (string * JsValue)) :=
               match l with
               | [] => []
               | (_, JUndefined) :: rest => image_props rest
               | (k, x) :: rest => (k, json_image x) :: image_props rest
               end) props)
  | JObjProto _ props =>
      JObj ((fix image_props (l : list (string * JsValue)) :=
               match l with
               | [] => []
               | (_, JUndefined) :: rest => image_props rest
               | (k, x) :: rest => (k, json_image x) :: image_props rest
               end) props)
  | _ => v
  end.

Definition JSON_stringify (v : JsValue) : SqlText :=
  match v with
  | JUndefined => SqlNull
  | _ => SqlJson (json_image v)
  end.

(** [JSON.parse(null)] parses the text "null". *)
Definition JSON_parse (t : SqlText) : JsValue :=
  match t with
  | SqlNull => JNull
  | SqlJson v => v
  end.

(** The table [stowrage (id INTEGER, name TEXT, data TEXT)]: rows in rowid
    order.  The table declares no PRIMARY KEY and no UNIQUE column. *)
Record Row : Type := { row_id : Z; row_name : string; row_data : SqlText }.

Definition Table : Type := list Row.

(** INSERT INTO stowrage (id, name, data) VALUES(?, ?, ?) *)
Definition sql_insert (r : Row) (t : Table) : Table := (t ++ [r])%list.

(** REPLACE INTO stowrage (id, name, data) VALUES(?, ?, ?): with no
    uniqueness constraint on the table no row ever conflicts, so the
    statement inserts. *)
Definition sql_replace (r : Row) (t : Table) : Table := (t ++ [r])%list.

(** DELETE FROM stowrage WHERE id = ? *)
Definition sql_delete_id (i : Z) (t : Table) : Table :=
  filter (fun r => negb (row_id r =? i)%Z) t.

(** DELETE FROM stowrage WHERE name = ?  (an [undefined] parameter is bound
    as NULL, which no row equals). *)
Definition sql_delete_name (n : option string) (t : Table) : Table :=
  match n with
  | Some n => filter (fun r => negb (row_name r =? n)) t
  | None => t
  end.

(** DELETE FROM stowrage WHERE id BETWEEN ? AND ? *)
Definition sql_delete_between (lo hi : Z) (t : Table) : Table :=
  filter (fun r => negb ((lo <=? row_id r)%Z && (row_id r <=? hi)%Z)) t.

(** DELETE FROM stowrage *)
Definition sql_delete_all (t : Table) : Table := [].

(** SELECT name, data FROM stowrage *)
Definition sql_select_name_data (t : Table) : list (string * SqlText) :=
  map (fun r => (row_name r, row_data r)) t.

(** ** The instance and its monad *)

Record Stowrage : Type := {
  priv_id : Z;                           (* #id *)
  priv_SQLDB : option Table;             (* #SQLDB *)
  priv_IDMap : JsMap Z string;           (* #IDMap *)
  priv_DB : JsMap string DataBase.t;     (* #DB *)
  maxEntries : option Z;
  name : option string;
  isPersistent : option bool
}.

Definition set_id (i : Z) (s : Stowrage) : Stowrage :=
  {| priv_id := i; priv_SQLDB := priv_SQLDB s; priv_IDMap := priv_IDMap s;
     priv_DB := priv_DB s; maxEntries := maxEntries s; name := name s;
     isPersistent := isPersistent s |}.

Definition set_SQLDB (h : option Table) (s : Stowrage) : Stowrage :=
  {| priv_id := priv_id s; priv_SQLDB := h; priv_IDMap := priv_IDMap s;
     priv_DB := priv_DB s; maxEntries := maxEntries s; name := name s;
     isPersistent := isPersistent s |}.

Definition set_IDMap (m : JsMap Z string) (s : Stowrage) : Stowrage :=
  {| priv_id := priv_id s; priv_SQLDB := priv_SQLDB s; priv_IDMap := m;
     priv_DB := priv_DB s; maxEntries := maxEntries s; name := name s;
     isPersistent := isPersistent s |}.

Definition set_DB (m : JsMap string DataBase.t) (s : Stowrage) : Stowrage :=
  {| priv_id := priv_id s; priv_SQLDB := priv_SQLDB s; priv_IDMap := priv_IDMap s;
     priv_DB := m; maxEntries := maxEntries s; name := name s;
     isPersistent := isPersistent s |}.

Inductive Result (A : Type) : Type :=
| Ok (a : A) (s : Stowrage)
| Throw (e : Error) (s : Stowrage).

Arguments Ok {A} a s.
Arguments Throw {A} e s.

(** The instance a call leaves behind, whether it returned or threw. *)
Definition final {A : Type} (r : Result A) : Stowrage :=
  match r with
  | Ok _ s => s
  | Throw _ s => s
  end.

Definition M (A : Type) : Type := Stowrage -> Result A.

Definition ret {A : Type} (a : A) : M A := fun s => Ok a s.

Definition throw {A : Type} (e : Error) : M A := fun s => Throw e s.

Definition bind {A B : Type} (m : M A) (k : A -> M B) : M B :=
  fun s =>
    match m s with
    | Ok a s' => k a s'
    | Throw e s' => Throw e s'
    end.

Definition this : M Stowrage := fun s => Ok s s.

Definition modify (f : Stowrage -> Stowrage) : M unit := fun s => Ok tt (f s).

Definition when (b : bool) (m : M unit) : M unit := if b then m else ret tt.

Declare Scope stow_scope.
Delimit Scope stow_scope with stow.
Notation "x <- m ;; k" := (bind m (fun x => k))
  (at level 61, m at next level, right associativity) : stow_scope.
Notation "m ;; k" := (bind m (fun _ => k))
  (at level 61, right associativity) : stow_scope.
Local Open Scope stow_scope.

(** ** The constructor and the methods *)

(** [this.name ?? "unnamed db"] *)
Definition name_or_unnamed (s : Stowrage) : string :=
  match name s with
  | Some n => n
  | None => "unnamed db"
  end.

(** [new Stowrage(options)]; creating the directory touches no field. *)
Definition new_Stowrage (options : option StowrageOptions) : Stowrage :=
  {| priv_id := 0;
     priv_SQLDB := None;
     priv_IDMap := [];
     priv_DB := [];
     maxEntries := match options with Some o => opt_maxEntries o | None => None end;
     name := match options with Some o => opt_name o | None => None end;
     isPersistent := match options with Some o => opt_persistent o | None => None end |}.

(** [if (this.#SQLDB && this.isPersistent) this.#SQLDB.query(...)] *)
Definition mirror (q : Table -> Table) : M unit :=
  s <- this ;;
  match priv_SQLDB s with
  | Some t => when (truthy_boolean (isPersistent s)) (modify (set_SQLDB (Some (q t))))
  | None => ret tt
  end.

Definition generateEntry (name : string) (key : JsValue) (override : bool)
  : M DataBase.t :=
  id <- (if override then
           s <- this ;;
           match Map_get name (priv_DB s) with
           | Some e => ret (DataBase.id e)
           | None => throw TypeError
           end
         else
           s <- this ;;
           modify (set_id (priv_id s + 1)) ;;
           ret (priv_id s)) ;;
  let obj := DataBase.mk id name key in
  when (negb override)
    (mirror (sql_insert {| row_id := DataBase.id obj;
                           row_name := DataBase.name obj;
                           row_data := JSON_stringify (DataBase.data obj) |}) ;;
     s <- this ;;
     match maxEntries s with
     | Some max =>
         when (truthy_number (Some max) && (Map_size (priv_DB s) >? max)%Z)
           (let name := Map_get (priv_id s - max) (priv_IDMap s) in
            match truthy_name name with
            | Some n => modify (fun s => set_DB (Map_delete n (priv_DB s)) s)
            | None => ret tt
            end ;;
            mirror (sql_delete_name name))
     | None => ret tt
     end) ;;
  ret obj.

Definition ensure (name : string) (value : JsValue) : M DataBase.t :=
  s <- this ;;
  if Map_has name (priv_DB s) then throw (NameDuplicationError name)
  else
    entry <- generateEntry name value false ;;
    modify (fun s => set_IDMap (Map_set (DataBase.id entry) name (priv_IDMap s)) s) ;;
    modify (fun s => set_DB (Map_set name entry (priv_DB s)) s) ;;
    ret entry.

Definition add (name : string) (key : JsValue) : M unit :=
  s <- this ;;
  if Map_has name (priv_DB s) then throw (NameDuplicationError name)
  else
    entry <- generateEntry name key false ;;
    modify (fun s => set_IDMap (Map_set (DataBase.id entry) name (priv_IDMap s)) s) ;;
    modify (fun s => set_DB (Map_set name entry (priv_DB s)) s) ;;
    ret tt.

(** The loop of [init]: every selected row goes through [add]. *)
Fixpoint replay (rows : list (string * SqlText)) : M unit :=
  match rows with
  | [] => ret tt
  | (name, data) :: rest => add name (JSON_parse data) ;; replay rest
  end.

(** [init()]: [file] is what the database file [path + name + ".db"] holds
    when it is opened (the empty table when CREATE TABLE IF NOT EXISTS has
    to create it).  The rows of the SELECT are those of the table as the
    statement finds it.  A query that steps through the table while [add]
    inserts goes on to the rows [add] has written and stops at the first of
    them with NameDuplicationError; it leaves the same instance and the same
    file.  What is proved of a reopening is therefore proved of the instance
    [init] leaves, [final (init file s)]. *)
Definition init (file : Table) : M unit :=
  s <- this ;;
  if truthy_string (name s) && truthy_boolean (isPersistent s) then
    modify (set_SQLDB (Some file)) ;;
    replay (sql_select_name_data file)
  else throw (nonPersistentError (name_or_unnamed s) "initiated").

Definition delete (name : string) : M unit :=
  s <- this ;;
  match Map_get name (priv_DB s) with
  | None => throw (NameNotFoundError name)
  | Some entry =>
      modify (fun s => set_DB (Map_delete name (priv_DB s)) s) ;;
      modify (fun s => set_IDMap (Map_delete (DataBase.id entry) (priv_IDMap s)) s) ;;
      mirror (sql_delete_id (DataBase.id entry))
  end.

Definition deleteByID (id : Z) : M unit :=
  s <- this ;;
  match truthy_name (Map_get id (priv_IDMap s)) with
  | None => throw (IDNotFoundError (Some id))
  | Some name =>
      modify (fun s => set_IDMap (Map_delete id (priv_IDMap s)) s) ;;
      modify (fun s => set_DB (Map_delete name (priv_DB s)) s) ;;
      mirror (sql_delete_id id)
  end.

(** The filter of [deleteByRange]: an id is kept when it is below [start]
    or above [range]. *)
Definition outside_range (start range id : Z) : bool :=
  (id <? start)%Z || (id >? range)%Z.

Definition deleteByRange (start length : Z) : M unit :=
  s <- this ;;
  let range := (start + length)%Z in
  if (range >=? Map_size (priv_DB s))%Z then
    modify (fun s => set_DB (Map_clear (priv_DB s)) s) ;;
    modify (fun s => set_IDMap (Map_clear (priv_IDMap s)) s) ;;
    modify (set_id 0) ;;
    mirror sql_delete_all
  else
    modify (fun s => set_DB
      (Map_new (filter (fun entry => outside_range start range (DataBase.id (snd entry)))
                       (Map_entries (priv_DB s)))) s) ;;
    modify (fun s => set_IDMap
      (Map_new (filter (fun entry => outside_range start range (fst entry))
                       (Map_entries (priv_IDMap s)))) s) ;;
    mirror (sql_delete_between start range).

Definition override (name : string) (newValue : JsValue) : M unit :=
  s <- this ;;
  if negb (Map_has name (priv_DB s)) then throw (NameNotFoundError name)
  else
    entry <- generateEntry name newValue true ;;
    modify (fun s => set_DB (Map_set name entry (priv_DB s)) s) ;;
    mirror (sql_replace {| row_id := DataBase.id entry;
                           row_name := DataBase.name entry;
                           row_data := JSON_stringify (DataBase.data entry) |}).

Definition overrideByID (id : Z) (key : JsValue) : M unit :=
  s <- this ;;
  match truthy_name (Map_get id (priv_IDMap s)) with
  | Some name => override name key
  | None => throw (IDNotFoundError (Some id))
  end.

(** [FilterFunc] is applied to the entries in the iteration order of #DB. *)
Definition filter (func : DataBase.t -> bool) : M (list DataBase.t) :=
  s <- this ;; ret (List.filter func (Map_values (priv_DB s))).

Definition find (func : DataBase.t -> bool) : M (option DataBase.t) :=
  s <- this ;; ret (List.find func (Map_values (priv_DB s))).

Definition fetch (name : string) : M DataBase.t :=
  s <- this ;;
  match Map_get name (priv_DB s) with
  | None => throw (NameNotFoundError name)
  | Some data => ret data
  end.

Definition fetchByID (id : Z) : M DataBase.t :=
  s <- this ;;
  match truthy_name (Map_get id (priv_IDMap s)) with
  | None => throw (IDNotFoundError (Some id))
  | Some name => fetch name
  end.

Definition fetchByRange (start length : Z) : M (list DataBase.t) :=
  s <- this ;;
  let range := (start + length)%Z in
  if (range >=? Map_size (priv_DB s))%Z then ret (Map_values (priv_DB s))
  else ret (List.filter (fun data => (DataBase.id data >=? start)%Z && (DataBase.id data <? range)%Z)
                   (Map_values (priv_DB s))).


(** The names of the members of [Object.prototype], which every plain
    object inherits: functions, and the accessor [__proto__].  The accessor
    is listed as ECMAScript defines it; a runtime that removes it (Deno
    does, unless started with [--unstable-unsafe-proto]) reads [undefined]
    there.  What is proved of [setValue] for a key the object does not have
    leaves [__proto__] out, and holds of both. *)
Definition Object_prototype_members : list string :=
  [ "constructor"; "__defineGetter__"; "__defineSetter__"; "hasOwnProperty";
    "__lookupGetter__"; "__lookupSetter__"; "isPrototypeOf"; "propertyIsEnumerable";
    "toString"; "valueOf"; "__proto__"; "toLocaleString" ].

Definition in_Object_prototype (key : string) : bool :=
  existsb (String.eqb key) Object_prototype_members.

(** [typeof data[key] === "undefined"]: the property is looked up on the
    object, then along its prototype chain; the first object that has it
    decides.  The members of [Object.prototype] are all defined (the getter
    of [__proto__] returns an object or [null]). *)
Fixpoint typeof_prop_undefined (data : JsValue) (key : string) : bool :=
  match data with
  | JObj props =>
      match Map_get key props with
      | Some v => typeof_undefined v
      | None => negb (in_Object_prototype key)
      end
  | JObjProto proto props =>
      match Map_get key props with
      | Some v => typeof_undefined v
      | None => typeof_prop_undefined proto key
      end
  | _ => true
  end.

(** Whether a write to [__proto__] reaches the setter of
    [Object.prototype]: no object on the chain has a property of that name
    of its own, and the chain ends in [Object.prototype]. *)
Fixpoint reaches_proto_setter (data : JsValue) : bool :=
  match data with
  | JObj props => negb (Map_has "__proto__" props)
  | JObjProto proto props =>
      negb (Map_has "__proto__" props) && reaches_proto_setter proto
  | _ => false
  end.

(** [data[key] = value].  The property is written on the object itself,
    created there when the object has none of that name; the one exception
    is a write that reaches the [__proto__] setter, which replaces the
    prototype when [value] is an object or [null] and does nothing
    otherwise.  (The setter's refusal of a prototype chain that leads back
    to the object cannot arise between values.) *)
Definition assign_prop (data : JsValue) (key : string) (v : JsValue) : JsValue :=
  match data with
  | JObj props =>
      if (key =? "__proto__") && reaches_proto_setter data
      then (if typeof_object v then JObjProto v props else data)
      else JObj (Map_set key v props)
  | JObjProto proto props =>
      if (key =? "__proto__") && reaches_proto_setter data
      then (if typeof_object v then JObjProto v props else data)
      else JObjProto proto (Map_set key v props)
  | _ => data
  end.

(** [setValue(nameID, options)].  The entry object held by #DB is written
    in place (its property, or its [data] field) and then handed to
    [override]; the in-place write is the [Map_set] on #DB below.  What the
    write does to another entry that was given the very same object is not
    represented: the model keeps a value per entry. *)
Definition setValue (nameID : string + Z) (options : ChangeValueOptions) : M unit :=
  s <- this ;;
  let nameID' : option string :=
    match nameID with
    | inr id => Map_get id (priv_IDMap s)
    | inl name => Some name
    end in
  match nameID' with
  | None => throw (IDNotFoundError None)
  | Some nameID =>
      if negb (truthy_string nameID') then throw (NameNotFoundError nameID)
      else
        match Map_get nameID (priv_DB s) with
        | None => throw TypeError   (* entry!.data with entry undefined *)
        | Some entry =>
            data <-
              (if typeof_object (DataBase.data entry) then
                 match key options with
                 | None => throw KeyUndefinedError
                 | Some k =>
                     match DataBase.data entry with
                     | JNull => throw TypeError   (* null[key] *)
                     | data =>
                         if typeof_prop_undefined data k
                         then throw (InvalidKeyError k (name_or_unnamed s))
                         else ret (assign_prop data k (value options))
                     end
                 end
               else ret (value options)) ;;
            modify (fun s => set_DB
              (Map_set nameID
                 (DataBase.mk (DataBase.id entry) (DataBase.name entry) data)
                 (priv_DB s)) s) ;;
            override nameID data
        end
  end.

Definition has (name : string) : M bool :=
  s <- this ;; ret (Map_has name (priv_DB s)).

Definition deleteStowrage : M unit :=
  modify (fun s => set_DB (Map_clear (priv_DB s)) s) ;;
  modify (fun s => set_IDMap (Map_clear (priv_IDMap s)) s) ;;
  modify (set_id 0) ;;
  mirror sql_delete_all.

(** [close()]: the handle is closed but #SQLDB keeps it; the file holds the
    table.  The model follows an instance up to its [close]: a query on the
    closed handle throws in the source, which is not represented. *)
Definition close : M unit :=
  s <- this ;;
  match priv_SQLDB s with
  | None => throw (nonPersistentError (name_or_unnamed s) "closed")
  | Some _ => ret tt
  end.

Definition totalEntries : M Z :=
  s <- this ;; ret (Map_size (priv_DB s)).

(** The database file an instance leaves behind. *)
Definition file_of (s : Stowrage) : Table :=
  match priv_SQLDB s with
  | Some t => t
  | None => []
  end.

(** ** Calls, reachable instances, and the instances used as inputs *)

(** A call of one of the methods that write to the instance. *)
Inductive Call : Type :=
| call_init (file : Table)
| call_ensure (name : string) (value : JsValue)
| call_add (name : string) (key : JsValue)
| call_delete (name : string)
| call_deleteByID (id : Z)
| call_deleteByRange (start length : Z)
| call_override (name : string) (newValue : JsValue)
| call_overrideByID (id : Z) (key : JsValue)
| call_setValue (nameID : string + Z) (options : ChangeValueOptions)
| call_deleteStowrage
| call_close.

(** The instance a call leaves behind, whether it returns or throws. *)
Definition perform (c : Call) (s : Stowrage) : Stowrage :=
  match c with
  | call_init file => final (init file s)
  | call_ensure n v => final (ensure n v s)
  | call_add n v => final (add n v s)
  | call_delete n => final (delete n s)
  | call_deleteByID i => final (deleteByID i s)
  | call_deleteByRange start length => final (deleteByRange start length s)
  | call_override n v => final (override n v s)
  | call_overrideByID i v => final (overrideByID i v s)
  | call_setValue n o => final (setValue n o s)
  | call_deleteStowrage => final (deleteStowrage s)
  | call_close => final (close s)
  end.

(** The instances a program can have: those the constructor gives, and
    those a call leaves behind. *)
Inductive reachable : Stowrage -> Prop :=
| reachable_new options : reachable (new_Stowrage options)
| reachable_call c s : reachable s -> reachable (perform c s).

(** Running a list of calls, first to last. *)
Definition perform_all (cs : list Call) (s : Stowrage) : Stowrage :=
  fold_left (fun s c => perform c s) cs s.

(** [add] of each pair in turn. *)
Definition add_all (entries : list (string * JsValue)) (s : Stowrage) : Stowrage :=
  perform_all (map (fun nv => call_add (fst nv) (snd nv)) entries) s.

(** [new Stowrage()] *)
Definition plain_store : Stowrage := new_Stowrage None.

(** [new Stowrage({ maxEntries: n })] *)
Definition capped_store (n : Z) : Stowrage :=
  new_Stowrage (Some {| opt_maxEntries := Some n; opt_name := None; opt_persistent := None |}).

(** [new Stowrage({ name: n, persistent: true })] *)
Definition persistent_store (n : string) : Stowrage :=
  new_Stowrage (Some {| opt_maxEntries := None; opt_name := Some n; opt_persistent := Some true |}).

(** [add("a", 1); add("b", 2)] on a fresh store. *)
Definition store_a_b : Stowrage :=
  perform_all [call_add "a" (JNum 1); call_add "b" (JNum 2)] plain_store.

(** [add("a", 1); add("b", 2); add("c", 3); delete("a"); delete("b")]:
    one entry, whose id is 2. *)
Definition store_c_only : Stowrage :=
  perform_all [call_add "a" (JNum 1); call_add "b" (JNum 2); call_add "c" (JNum 3);
               call_delete "a"; call_delete "b"] plain_store.


(** [add("x", { a: 1, b: 2 })] on a fresh store. *)
Definition store_record : Stowrage :=
  perform_all [call_add "x" (JObj [("a", JNum 1); ("b", JNum 2)])] plain_store.

(** [add("", 1)] on a fresh store: an entry whose name is the empty string. *)
Definition store_empty_name : Stowrage :=
  perform_all [call_add "" (JNum 1)] plain_store.

(** A first session on a new file: [init], [add("a", 1)],
    [override("a", 2)], [close]. *)
Definition session_override : Stowrage :=
  perform_all [call_init []; call_add "a" (JNum 1); call_override "a" (JNum 2); call_close]
    (persistent_store "s").

(** A first session on a new file with adds only. *)
Definition session_adds : Stowrage :=
  perform_all [call_init []; call_add "a" (JNum 1); call_add "b" (JNum 2); call_close]
    (persistent_store "s").

(** ** What the methods leave behind *)

(** The instance after a guarded write to the mirror. *)
Definition after_mirror (q : Table -> Table) (s : Stowrage) : Stowrage :=
  final (mirror q s).

(** The instance after the cap check at the end of [generateEntry]. *)
Definition cap_check (s : Stowrage) : Stowrage :=
  match maxEntries s with
  | Some max =>
      if truthy_number (Some max) && (Map_size (priv_DB s) >? max)%Z then
        let name := Map_get (priv_id s - max)%Z (priv_IDMap s) in
        after_mirror (sql_delete_name name)
          match truthy_name name with
          | Some n => set_DB (Map_delete n (priv_DB s)) s
          | None => s
          end
      else s
  | None => s
  end.

(** The instance after [generateEntry(n, v)]: counter advanced, row
    inserted, cap checked. *)
Definition counted (n : string) (v : JsValue) (s : Stowrage) : Stowrage :=
  cap_check
    (after_mirror
       (sql_insert {| row_id := priv_id s; row_name := n; row_data := JSON_stringify v |})
       (set_id (priv_id s + 1) s)).

(** The instance after a whole [add(n, v)] of a new name. *)
Definition inserted (n : string) (v : JsValue) (s : Stowrage) : Stowrage :=
  let entry := DataBase.mk (priv_id s) n v in
  let s1 := counted n v s in
  set_DB (Map_set n entry (priv_DB s1)) (set_IDMap (Map_set (priv_id s) n (priv_IDMap s1)) s1).

(** The instance after [setValue] has stored [d] as the data of the entry
    [e] found under [n]. *)
Definition rewritten (n : string) (e : DataBase.t) (d : JsValue) (s : Stowrage) : Stowrage :=
  after_mirror
    (sql_replace {| row_id := DataBase.id e; row_name := n; row_data := JSON_stringify d |})
    (set_DB
       (Map_set n (DataBase.mk (DataBase.id e) n d)
          (Map_set n (DataBase.mk (DataBase.id e) (DataBase.name e) d) (priv_DB s)))
       s).

(** ** Predicates of the statements *)

(** [triple P m Q R]: from an instance satisfying [P], [m] either returns
    [a] leaving an instance with [Q a], or throws [e] leaving one with
    [R e]. *)
Definition triple {A : Type} (P : Stowrage -> Prop) (m : M A)
  (Q : A -> Stowrage -> Prop) (R : Error -> Stowrage -> Prop) : Prop :=
  forall s, P s ->
    match m s with
    | Ok a s' => Q a s'
    | Throw e s' => R e s'
    end.

(** The invariant of the two maps: keys are distinct in both and every
    entry is filed under its own name. *)
Record Inv (s : Stowrage) : Prop := {
  Inv_DB_keys : NoDup (Map_keys (priv_DB s));
  Inv_IDMap_keys : NoDup (Map_keys (priv_IDMap s));
  Inv_names : Forall (fun kv => DataBase.name (snd kv) = fst kv) (priv_DB s)
}.

(** [preserves m]: [m] keeps the invariant, however it ends. *)
Definition preserves {A : Type} (m : M A) : Prop :=
  triple Inv m (fun _ => Inv) (fun _ => Inv).

(** [paired db ids next]: the name index [db] and the id index [ids] are in
    bijection (each name leads to an entry whose id leads back to the name,
    and each id leads to a name whose entry carries that id), keys are
    distinct, and every id in use lies below the counter [next]. *)
Record paired (db : JsMap string DataBase.t) (ids : JsMap Z string) (next : Z) : Prop := {
  paired_keys_db : NoDup (Map_keys db);
  paired_keys_ids : NoDup (Map_keys ids);
  paired_name_id : forall n e,
    Map_get n db = Some e -> Map_get (DataBase.id e) ids = Some n;
  paired_id_name : forall i n,
    Map_get i ids = Some n -> exists e, Map_get n db = Some e /\ DataBase.id e = i;
  paired_below : forall i n, Map_get i ids = Some n -> (i < next)%Z
}.

(** An instance without a cap ([maxEntries] unset or 0) whose indices are
    paired. *)
Definition in_step (s : Stowrage) : Prop :=
  truthy_number (maxEntries s) = false /\
  paired (priv_DB s) (priv_IDMap s) (priv_id s).

(** The ids the partial branch removes: [start <= id <= start + length]. *)
Definition in_range (start length id : Z) : Prop :=
  (start <= id <= start + length)%Z.

(** The entry a first argument of [setValue] stands for: the name itself,
    or the name the id index gives for the id. *)
Definition resolves (s : Stowrage) (nameID : string + Z) (n : string) : Prop :=
  match nameID with
  | inl m => m = n
  | inr i => Map_get i (priv_IDMap s) = Some n
  end.


(** ** Predicates of the further properties *)

(** Every id in use, in either index, lies below the counter. *)
Definition ids_below (s : Stowrage) : Prop :=
  (forall i n, Map_get i (priv_IDMap s) = Some n -> (i < priv_id s)%Z) /\
  (forall n e, Map_get n (priv_DB s) = Some e -> (DataBase.id e < priv_id s)%Z).

(** [s'] has the names of [s] in the same order, each with the id it had,
    the same id index and the same counter: only data can differ. *)
Definition same_shape (s s' : Stowrage) : Prop :=
  Map_keys (priv_DB s') = Map_keys (priv_DB s) /\
  (forall n e', Map_get n (priv_DB s') = Some e' ->
     exists e, Map_get n (priv_DB s) = Some e /\ DataBase.id e' = DataBase.id e) /\
  priv_IDMap s' = priv_IDMap s /\
  priv_id s' = priv_id s.

(** A value that [JSON.parse(JSON.stringify(v))] gives back unchanged. *)
Definition json_stable (v : JsValue) : Prop :=
  JSON_parse (JSON_stringify v) = v.

(** The rows that adding the pairs one after the other inserts, the first
    with id [next]. *)
Fixpoint rows_of (next : Z) (entries : list (string * JsValue)) : Table :=
  match entries with
  | [] => []
  | (n, v) :: rest =>
      {| row_id := next; row_name := n; row_data := JSON_stringify v |}
        :: rows_of (next + 1) rest
  end.

(** The row a stored entry stands for in the table. *)
Definition row_of_entry (e : DataBase.t) : Row :=
  {| row_id := DataBase.id e; row_name := DataBase.name e;
     row_data := JSON_stringify (DataBase.data e) |}.

(** The mirror is written to and holds one row per entry, in the order of
    the name index. *)
Definition mirrored (s : Stowrage) : Prop :=
  truthy_boolean (isPersistent s) = true /\
  priv_SQLDB s = Some (map row_of_entry (Map_values (priv_DB s))).


(** * Lemmas and theorems *)

(** ** Facts about [Map] *)

Section JsMapFacts.
Context {K V : Type} `{JsKey K}.
Implicit Types (k : K) (v : V) (m : JsMap K V).

Lemma key_eqb_refl k : key_eqb k k = true.
Proof. destruct (key_eqb_spec k k); congruence. Qed.

Lemma key_eqb_neq k k' : k <> k' -> key_eqb k k' = false.
Proof. intros Hne. destruct (key_eqb_spec k k'); congruence. Qed.

Lemma Map_get_set_eq k v m : Map_get k (Map_set k v m) = Some v.
Proof.
  induction m as [|[k' v'] m IH]; simpl.
  - now rewrite key_eqb_refl.
  - destruct (key_eqb_spec k k') as [->|Hne]; simpl.
    + now rewrite key_eqb_refl.
    + now rewrite (key_eqb_neq _ _ Hne).
Qed.

Lemma Map_get_set_neq k k' v m :
  k <> k' -> Map_get k' (Map_set k v m) = Map_get k' m.
Proof.
  intros Hne. induction m as [|[k0 v0] m IH]; simpl.
  - rewrite key_eqb_neq; auto.
  - destruct (key_eqb_spec k k0) as [->|Hne0]; simpl.
    + rewrite !key_eqb_neq; auto.
    + now rewrite IH.
Qed.

Lemma Map_get_delete_eq k m : Map_get k (Map_delete k m) = None.
Proof.
  unfold Map_delete. induction m as [|[k' v'] m IH]; simpl; auto.
  destruct (key_eqb_spec k k') as [->|Hne]; simpl; auto.
  now rewrite (key_eqb_neq _ _ Hne).
Qed.

Lemma Map_get_delete_neq k k' m :
  k <> k' -> Map_get k' (Map_delete k m) = Map_get k' m.
Proof.
  intros Hne. unfold Map_delete. induction m as [|[k0 v0] m IH]; simpl; auto.
  destruct (key_eqb_spec k k0) as [->|Hne0]; simpl.
  - rewrite key_eqb_neq; auto.
  - now rewrite IH.
Qed.

Lemma Map_get_In k v m : Map_get k m = Some v -> In (k, v) m.
Proof.
  induction m as [|[k' v'] m IH]; simpl; [discriminate|].
  destruct (key_eqb_spec k k') as [->|Hne]; intros Hg.
  - left. congruence.
  - right. auto.
Qed.

Lemma Map_get_None_keys k m : Map_get k m = None <-> ~ In k (Map_keys m).
Proof.
  induction m as [|[k' v'] m IH]; simpl.
  - tauto.
  - destruct (key_eqb_spec k k') as [->|Hne].
    + split; [discriminate | intros Hn; exfalso; apply Hn; now left].
    + rewrite IH. split; intros Hn; [intros [Heq|Hin]|]; try congruence; tauto.
Qed.

Lemma In_Map_get k v m : NoDup (Map_keys m) -> In (k, v) m -> Map_get k m = Some v.
Proof.
  induction m as [|[k' v'] m IH]; simpl; [tauto|].
  intros Hnd [Heq|Hin].
  - inversion Heq; subst. now rewrite key_eqb_refl.
  - inversion Hnd as [|? ? Hnotin Hnd']; subst.
    destruct (key_eqb_spec k k') as [->|Hne]; auto.
    exfalso. apply Hnotin. change (In (fst (k', v)) (map fst m)). now apply in_map.
Qed.

Lemma Map_keys_filter_incl (p : K * V -> bool) m k :
  In k (Map_keys (List.filter p m)) -> In k (Map_keys m).
Proof.
  unfold Map_keys. rewrite !in_map_iff. intros [kv [Hk Hin]].
  apply filter_In in Hin. exists kv. tauto.
Qed.

Lemma NoDup_keys_filter (p : K * V -> bool) m :
  NoDup (Map_keys m) -> NoDup (Map_keys (List.filter p m)).
Proof.
  induction m as [|[k v] m IH]; simpl; auto.
  intros Hnd. inversion Hnd as [|? ? Hnotin Hnd']; subst.
  destruct (p (k, v)); simpl; auto.
  constructor; auto. intros Hin. apply Hnotin. eapply Map_keys_filter_incl; eauto.
Qed.

Lemma NoDup_keys_delete k m : NoDup (Map_keys m) -> NoDup (Map_keys (Map_delete k m)).
Proof. apply NoDup_keys_filter. Qed.

Lemma Map_keys_set_In k v m k' :
  In k' (Map_keys (Map_set k v m)) -> k' = k \/ In k' (Map_keys m).
Proof.
  induction m as [|[k0 v0] m IH]; simpl.
  - intros [<-|[]]; auto.
  - destruct (key_eqb_spec k k0) as [->|Hne]; simpl.
    + intros [<-|Hin]; auto.
    + intros [<-|Hin]; auto. destruct (IH Hin); auto.
Qed.

Lemma NoDup_keys_set k v m : NoDup (Map_keys m) -> NoDup (Map_keys (Map_set k v m)).
Proof.
  induction m as [|[k0 v0] m IH]; simpl; intros Hnd.
  - constructor; [simpl; tauto | constructor].
  - inversion Hnd as [|? ? Hnotin Hnd']; subst.
    destruct (key_eqb_spec k k0) as [->|Hne]; simpl.
    + now constructor.
    + constructor; auto. intros Hin.
      destruct (Map_keys_set_In _ _ _ _ Hin); [congruence | contradiction].
Qed.

(** [set] on a key that is absent appends the pair. *)
Lemma Map_set_fresh k v m : Map_get k m = None -> Map_set k v m = (m ++ [(k, v)])%list.
Proof.
  induction m as [|[k0 v0] m IH]; simpl; auto.
  destruct (key_eqb_spec k k0) as [->|Hne]; [discriminate|].
  intros Hg. now rewrite IH.
Qed.

Lemma Map_new_from (l : list (K * V)) : forall acc : JsMap K V,
  NoDup (Map_keys (acc ++ l)%list) ->
  fold_left (fun m kv => Map_set (fst kv) (snd kv) m) l acc = (acc ++ l)%list.
Proof.
  induction l as [|[k v] l IH]; intros acc Hnd; simpl.
  - now rewrite app_nil_r.
  - rewrite Map_set_fresh.
    + rewrite IH; rewrite <- app_assoc; simpl; auto.
    + apply Map_get_None_keys. unfold Map_keys in *. rewrite map_app in Hnd. simpl in Hnd.
      apply NoDup_remove_2 in Hnd. intros Hin. apply Hnd. apply in_or_app. now left.
Qed.

(** [new Map] of pairs with distinct keys keeps them as they are. *)
Lemma Map_new_NoDup (l : list (K * V)) : NoDup (Map_keys l) -> Map_new l = l.
Proof. intros Hnd. unfold Map_new. now rewrite Map_new_from. Qed.

Lemma Map_get_filter (p : K * V -> bool) k m :
  NoDup (Map_keys m) ->
  Map_get k (List.filter p m) =
    match Map_get k m with
    | Some v => if p (k, v) then Some v else None
    | None => None
    end.
Proof.
  induction m as [|[k0 v0] m IH]; simpl; auto.
  intros Hnd. inversion Hnd as [|? ? Hnotin Hnd']; subst.
  destruct (key_eqb_spec k k0) as [->|Hne].
  - destruct (p (k0, v0)) eqn:Hp; simpl.
    + now rewrite key_eqb_refl.
    + apply Map_get_None_keys. intros Hin. apply Hnotin.
      eapply Map_keys_filter_incl; eauto.
  - destruct (p (k0, v0)); simpl; auto.
    now rewrite (key_eqb_neq _ _ Hne), IH.
Qed.

Lemma Map_has_true k m : Map_has k m = true <-> exists v, Map_get k m = Some v.
Proof.
  unfold Map_has. destruct (Map_get k m); split; eauto; try discriminate.
  intros [v Hv]; discriminate.
Qed.

Lemma Map_has_false k m : Map_has k m = false <-> Map_get k m = None.
Proof. unfold Map_has. destruct (Map_get k m); split; congruence. Qed.

Lemma Map_size_set_fresh k v m :
  Map_get k m = None -> Map_size (Map_set k v m) = (Map_size m + 1)%Z.
Proof.
  intros Hg. rewrite Map_set_fresh by assumption.
  unfold Map_size. rewrite length_app. simpl. lia.
Qed.

Lemma Map_size_set_present k v m :
  Map_has k m = true -> Map_size (Map_set k v m) = Map_size m.
Proof.
  unfold Map_has, Map_size. induction m as [|[k0 v0] m IH]; simpl; [discriminate|].
  destruct (key_eqb_spec k k0) as [->|Hne]; simpl; auto.
  intros Hh. specialize (IH Hh). lia.
Qed.

Lemma Map_keys_set_present k v m :
  Map_has k m = true -> Map_keys (Map_set k v m) = Map_keys m.
Proof.
  unfold Map_has. induction m as [|[k0 v0] m IH]; simpl; [discriminate|].
  destruct (key_eqb_spec k k0) as [->|Hne]; simpl; auto.
  intros Hh. now rewrite IH.
Qed.
End JsMapFacts.

(** ** The mirror never touches the indices *)

Lemma mirror_Ok q s : mirror q s = Ok tt (after_mirror q s).
Proof.
  unfold after_mirror, mirror, bind, this, when, modify, ret.
  destruct (priv_SQLDB s); [destruct (truthy_boolean (isPersistent s))|]; reflexivity.
Qed.

Lemma after_mirror_fields q s :
  priv_id (after_mirror q s) = priv_id s /\
  priv_IDMap (after_mirror q s) = priv_IDMap s /\
  priv_DB (after_mirror q s) = priv_DB s /\
  maxEntries (after_mirror q s) = maxEntries s /\
  name (after_mirror q s) = name s /\
  isPersistent (after_mirror q s) = isPersistent s.
Proof.
  unfold after_mirror, mirror, bind, this, when, modify, ret.
  destruct (priv_SQLDB s); [destruct (truthy_boolean (isPersistent s))|]; simpl; tauto.
Qed.

Lemma after_mirror_id q s : priv_id (after_mirror q s) = priv_id s.
Proof. apply after_mirror_fields. Qed.

Lemma after_mirror_IDMap q s : priv_IDMap (after_mirror q s) = priv_IDMap s.
Proof. apply after_mirror_fields. Qed.

Lemma after_mirror_DB q s : priv_DB (after_mirror q s) = priv_DB s.
Proof. apply after_mirror_fields. Qed.

Lemma after_mirror_maxEntries q s : maxEntries (after_mirror q s) = maxEntries s.
Proof. apply after_mirror_fields. Qed.

Lemma after_mirror_name q s : name (after_mirror q s) = name s.
Proof. apply after_mirror_fields. Qed.

Lemma after_mirror_isPersistent q s : isPersistent (after_mirror q s) = isPersistent s.
Proof. apply after_mirror_fields. Qed.

Create HintDb stow discriminated.
Create Rewrite HintDb stow_fields.
#[export] Hint Rewrite after_mirror_id after_mirror_IDMap after_mirror_DB
  after_mirror_maxEntries after_mirror_name after_mirror_isPersistent : stow_fields.

(** ** Rules for triples *)

Section Triples.
Context {A B : Type}.
Implicit Types (P : Stowrage -> Prop) (R : Error -> Stowrage -> Prop).

Lemma triple_ret P (a : A) (Q : A -> Stowrage -> Prop) R :
  (forall s, P s -> Q a s) -> triple P (ret a) Q R.
Proof. intros HQ s HP. simpl. auto. Qed.

Lemma triple_throw P (e : Error) (Q : A -> Stowrage -> Prop) R :
  (forall s, P s -> R e s) -> triple P (@throw A e) Q R.
Proof. intros HR s HP. simpl. auto. Qed.

Lemma triple_bind P (m : M A) (k : A -> M B) (Q : A -> Stowrage -> Prop)
  (Q' : B -> Stowrage -> Prop) R :
  triple P m Q R -> (forall a, triple (Q a) (k a) Q' R) ->
  triple P (bind m k) Q' R.
Proof.
  intros Hm Hk s HP. unfold bind. specialize (Hm s HP).
  destruct (m s) as [a s'|e s']; auto. now apply Hk.
Qed.

Lemma triple_this P (k : Stowrage -> M B) (Q' : B -> Stowrage -> Prop) R :
  (forall s0, triple (fun s => s = s0 /\ P s) (k s0) Q' R) ->
  triple P (bind this k) Q' R.
Proof. intros Hk s HP. unfold bind, this. now apply Hk. Qed.

Lemma triple_weaken (P P' : Stowrage -> Prop) (m : M A)
  (Q : A -> Stowrage -> Prop) R :
  (forall s, P' s -> P s) -> triple P m Q R -> triple P' m Q R.
Proof. intros Himp Hm s HP. apply Hm. auto. Qed.
End Triples.

Lemma triple_modify (P : Stowrage -> Prop) (f : Stowrage -> Stowrage)
  (Q : unit -> Stowrage -> Prop) R :
  (forall s, P s -> Q tt (f s)) -> triple P (modify f) Q R.
Proof. intros HQ s HP. simpl. auto. Qed.

Lemma triple_mirror (P : Stowrage -> Prop) q (Q : unit -> Stowrage -> Prop) R :
  (forall s, P s -> Q tt (after_mirror q s)) -> triple P (mirror q) Q R.
Proof. intros HQ s HP. rewrite mirror_Ok. auto. Qed.

Lemma triple_when (P : Stowrage -> Prop) (b : bool) (m : M unit)
  (Q : unit -> Stowrage -> Prop) R :
  (b = true -> triple P m Q R) -> (b = false -> forall s, P s -> Q tt s) ->
  triple P (when b m) Q R.
Proof.
  intros Ht Hf. destruct b; simpl.
  - now apply Ht.
  - intros s HP. simpl. now apply Hf.
Qed.

(** ** Every method keeps the invariant, eviction included *)

Lemma Inv_fields s s' :
  priv_DB s' = priv_DB s -> priv_IDMap s' = priv_IDMap s -> Inv s -> Inv s'.
Proof. intros HD HI [H1 H2 H3]. split; rewrite ?HD, ?HI; assumption. Qed.

Lemma Inv_after_mirror q s : Inv s -> Inv (after_mirror q s).
Proof. apply Inv_fields; autorewrite with stow_fields; reflexivity. Qed.

Lemma Inv_new options : Inv (new_Stowrage options).
Proof. split; simpl; constructor. Qed.

Lemma Inv_names_get s n e :
  Inv s -> Map_get n (priv_DB s) = Some e -> DataBase.name e = n.
Proof.
  intros HI Hg. apply Map_get_In in Hg.
  pose proof (Inv_names s HI) as Hf. rewrite Forall_forall in Hf.
  exact (Hf _ Hg).
Qed.

Lemma Forall_names_set n e (m : JsMap string DataBase.t) :
  DataBase.name e = n ->
  Forall (fun kv => DataBase.name (snd kv) = fst kv) m ->
  Forall (fun kv => DataBase.name (snd kv) = fst kv) (Map_set n e m).
Proof.
  intros Hn. induction m as [|[k0 v0] m IH]; simpl; intros Hf.
  - constructor; auto.
  - inversion Hf as [|x l Hx Hl].
    match goal with |- context [if ?b then _ else _] => destruct b end;
      constructor; auto.
Qed.

Lemma Forall_names_filter (p : string * DataBase.t -> bool) (m : JsMap string DataBase.t) :
  Forall (fun kv => DataBase.name (snd kv) = fst kv) m ->
  Forall (fun kv => DataBase.name (snd kv) = fst kv) (List.filter p m).
Proof.
  rewrite !Forall_forall. intros Hf kv Hin. apply filter_In in Hin. apply Hf, Hin.
Qed.

Lemma Inv_set_DB n e s :
  DataBase.name e = n -> Inv s -> Inv (set_DB (Map_set n e (priv_DB s)) s).
Proof.
  intros Hn [H1 H2 H3]. split; simpl; auto.
  - now apply NoDup_keys_set.
  - now apply Forall_names_set.
Qed.

Lemma Inv_set_IDMap i n s : Inv s -> Inv (set_IDMap (Map_set i n (priv_IDMap s)) s).
Proof. intros [H1 H2 H3]. split; simpl; auto. now apply NoDup_keys_set. Qed.

Lemma Inv_delete_DB n s : Inv s -> Inv (set_DB (Map_delete n (priv_DB s)) s).
Proof.
  intros [H1 H2 H3]. split; simpl; auto.
  - now apply NoDup_keys_delete.
  - now apply Forall_names_filter.
Qed.

Lemma Inv_delete_IDMap i s : Inv s -> Inv (set_IDMap (Map_delete i (priv_IDMap s)) s).
Proof. intros [H1 H2 H3]. split; simpl; auto. now apply NoDup_keys_delete. Qed.

Lemma Inv_set_id i s : Inv s -> Inv (set_id i s).
Proof. apply Inv_fields; reflexivity. Qed.

Lemma Inv_set_SQLDB h s : Inv s -> Inv (set_SQLDB h s).
Proof. apply Inv_fields; reflexivity. Qed.

#[export] Hint Resolve Inv_after_mirror Inv_set_DB Inv_set_IDMap Inv_delete_DB
  Inv_delete_IDMap Inv_set_id Inv_set_SQLDB Inv_new : stow.

Lemma triple_bind_keep {A B : Type} (P : Stowrage -> Prop) (m : M A) (k : A -> M B)
  (Q' : B -> Stowrage -> Prop) R :
  triple P m (fun _ => P) R -> (forall a, triple P (k a) Q' R) ->
  triple P (bind m k) Q' R.
Proof. intros Hm Hk. eapply triple_bind; eauto. Qed.

Lemma triple_this_keep {B : Type} (P : Stowrage -> Prop) (k : Stowrage -> M B)
  (Q' : B -> Stowrage -> Prop) R :
  (forall s0, triple P (k s0) Q' R) -> triple P (bind this k) Q' R.
Proof.
  intros Hk. apply triple_this. intros s0.
  eapply triple_weaken; [|apply Hk]. simpl. tauto.
Qed.

(** Walks through a method body, leaving one goal per write. *)
Ltac keep :=
  repeat lazymatch goal with
  | |- triple _ (bind this _) _ _ => apply triple_this_keep; intros ?
  | |- triple _ (bind _ _) _ _ => apply triple_bind_keep; [| intros ?]
  | |- triple _ (ret _) _ _ => apply triple_ret
  | |- triple _ (throw _) _ _ => apply triple_throw
  | |- triple _ (modify _) _ _ => apply triple_modify
  | |- triple _ (mirror _) _ _ => apply triple_mirror
  | |- triple _ (when _ _) _ _ => apply triple_when; [intros _ | intros _]
  | |- triple _ (match ?x with _ => _ end) _ _ => destruct x
  end.

Lemma generateEntry_keeps n v ov :
  triple Inv (generateEntry n v ov)
    (fun e s => Inv s /\ DataBase.name e = n) (fun _ => Inv).
Proof.
  unfold generateEntry.
  eapply triple_bind with (Q := fun _ => Inv).
  - destruct ov; keep; auto with stow.
  - intros i. apply triple_bind_keep.
    + keep; auto with stow.
    + intros _. apply triple_ret. simpl. auto.
Qed.

Lemma add_keeps n v : preserves (add n v).
Proof.
  unfold preserves, add. apply triple_this_keep; intros s0.
  destruct (Map_has n (priv_DB s0)).
  - apply triple_throw; auto.
  - eapply triple_bind; [apply generateEntry_keeps|].
    intros e. simpl. keep; intros s [HI Hn]; auto with stow.
Qed.

Lemma ensure_keeps n v : preserves (ensure n v).
Proof.
  unfold preserves, ensure. apply triple_this_keep; intros s0.
  destruct (Map_has n (priv_DB s0)).
  - apply triple_throw; auto.
  - eapply triple_bind; [apply generateEntry_keeps|].
    intros e. simpl. keep; intros s [HI Hn]; auto with stow.
Qed.

Lemma replay_keeps rows : preserves (replay rows).
Proof.
  unfold preserves. induction rows as [|[n d] rows IH]; simpl.
  - now apply triple_ret.
  - apply triple_bind_keep; [apply add_keeps | intros _; apply IH].
Qed.

Lemma init_keeps file : preserves (init file).
Proof.
  unfold preserves, init. apply triple_this_keep; intros s0.
  destruct (_ && _).
  - apply triple_bind_keep; [keep; auto with stow | intros _; apply replay_keeps].
  - now apply triple_throw.
Qed.

Lemma delete_keeps n : preserves (delete n).
Proof. unfold preserves, delete. keep; auto with stow. Qed.

Lemma deleteByID_keeps i : preserves (deleteByID i).
Proof. unfold preserves, deleteByID. keep; auto with stow. Qed.

Lemma Inv_rebuild_DB (p : string * DataBase.t -> bool) s :
  Inv s -> Inv (set_DB (Map_new (List.filter p (Map_entries (priv_DB s)))) s).
Proof.
  intros [H1 H2 H3]. unfold Map_entries.
  rewrite Map_new_NoDup by now apply NoDup_keys_filter.
  split; simpl; auto.
  - now apply NoDup_keys_filter.
  - now apply Forall_names_filter.
Qed.

Lemma Inv_rebuild_IDMap (p : Z * string -> bool) s :
  Inv s -> Inv (set_IDMap (Map_new (List.filter p (Map_entries (priv_IDMap s)))) s).
Proof.
  intros [H1 H2 H3]. unfold Map_entries.
  rewrite Map_new_NoDup by now apply NoDup_keys_filter.
  split; simpl; auto. now apply NoDup_keys_filter.
Qed.

Lemma Inv_clear_DB s : Inv s -> Inv (set_DB (Map_clear (priv_DB s)) s).
Proof. intros [H1 H2 H3]. split; simpl; auto; constructor. Qed.

Lemma Inv_clear_IDMap s : Inv s -> Inv (set_IDMap (Map_clear (priv_IDMap s)) s).
Proof. intros [H1 H2 H3]. split; simpl; auto; constructor. Qed.

#[export] Hint Resolve Inv_rebuild_DB Inv_rebuild_IDMap Inv_clear_DB Inv_clear_IDMap : stow.

Lemma deleteByRange_keeps start length : preserves (deleteByRange start length).
Proof. unfold preserves, deleteByRange. keep; auto with stow. Qed.

Lemma deleteStowrage_keeps : preserves deleteStowrage.
Proof. unfold preserves, deleteStowrage. keep; auto with stow. Qed.

Lemma override_keeps n v : preserves (override n v).
Proof.
  unfold preserves, override. apply triple_this_keep; intros s0.
  destruct (negb _).
  - now apply triple_throw.
  - eapply triple_bind; [apply generateEntry_keeps|].
    intros e. simpl. keep; intros s [HI Hn]; auto with stow.
Qed.

Lemma overrideByID_keeps i v : preserves (overrideByID i v).
Proof.
  unfold preserves, overrideByID. apply triple_this_keep; intros s0.
  destruct (truthy_name _).
  - apply override_keeps.
  - now apply triple_throw.
Qed.

Lemma close_keeps : preserves close.
Proof. unfold preserves, close. keep; auto. Qed.

Lemma setValue_keeps nameID options : preserves (setValue nameID options).
Proof.
  unfold preserves, setValue. apply triple_this; intros s0.
  destruct (match nameID with inl n => Some n | inr i => Map_get i (priv_IDMap s0) end)
    as [n|] eqn:Hres; [|apply triple_throw; tauto].
  destruct (negb _); [apply triple_throw; tauto|].
  destruct (Map_get n (priv_DB s0)) as [entry|] eqn:Hget; [|apply triple_throw; tauto].
  eapply triple_bind with (Q := fun _ s => s = s0 /\ Inv s).
  - destruct (typeof_object _); [|now apply triple_ret].
    destruct (key options); [|apply triple_throw; tauto].
    destruct (DataBase.data entry); try (apply triple_throw; tauto);
      (destruct (typeof_prop_undefined _ _); [apply triple_throw; tauto | now apply triple_ret]).
  - intros d. apply triple_bind with (Q := fun _ => Inv).
    + apply triple_modify. intros s [-> HI]. apply Inv_set_DB; auto.
      simpl. eapply Inv_names_get; eauto.
    + intros _. apply override_keeps.
Qed.

(** ** The invariant holds of every instance a program can reach *)

Lemma preserves_final {A : Type} (m : M A) s : preserves m -> Inv s -> Inv (final (m s)).
Proof.
  intros Hm HI. specialize (Hm s HI). destruct (m s); exact Hm.
Qed.

Lemma perform_keeps c s : Inv s -> Inv (perform c s).
Proof.
  intros HI. destruct c; simpl; apply preserves_final; auto.
  - apply init_keeps.
  - apply ensure_keeps.
  - apply add_keeps.
  - apply delete_keeps.
  - apply deleteByID_keeps.
  - apply deleteByRange_keeps.
  - apply override_keeps.
  - apply overrideByID_keeps.
  - apply setValue_keeps.
  - apply deleteStowrage_keeps.
  - apply close_keeps.
Qed.

Lemma reachable_Inv s : reachable s -> Inv s.
Proof.
  induction 1 as [options|c s Hr IH].
  - apply Inv_new.
  - now apply perform_keeps.
Qed.

Lemma reachable_perform_all cs : forall s, reachable s -> reachable (perform_all cs s).
Proof.
  induction cs as [|c cs IH]; simpl; intros s Hr; auto.
  apply IH. now constructor.
Qed.

(** ** add and ensure on a name already present *)

(** C8: when the name is already in the store, [add] and [ensure] both throw
    NameDuplicationError carrying that name and leave the instance exactly
    as it was (so [totalEntries] and both indices are unaffected). *)
Theorem add_ensure_duplicate_name (s : Stowrage) (n : string) (v : JsValue) :
  has n s = Ok true s ->
  add n v s = Throw (NameDuplicationError n) s /\
  ensure n v s = Throw (NameDuplicationError n) s /\
  totalEntries (final (add n v s)) = totalEntries s /\
  totalEntries (final (ensure n v s)) = totalEntries s.
Proof.
  unfold has, add, ensure, bind, this, ret, throw. intros Hhas.
  assert (Hh : Map_has n (priv_DB s) = true) by congruence.
  rewrite Hh. simpl. auto.
Qed.

Lemma add_ensure_duplicate_name_witness :
  has "a" store_a_b = Ok true store_a_b /\
  add "a" (JNum 7) store_a_b = Throw (NameDuplicationError "a") store_a_b /\
  ensure "a" (JNum 7) store_a_b = Throw (NameDuplicationError "a") store_a_b.
Proof.
  split; [reflexivity|].
  destruct (add_ensure_duplicate_name store_a_b "a" (JNum 7)) as (Ha & He & _);
    [reflexivity | split; assumption].
Defined.

(** ** override *)

Lemma generateEntry_override n v e s :
  Map_get n (priv_DB s) = Some e ->
  generateEntry n v true s = Ok (DataBase.mk (DataBase.id e) n v) s.
Proof.
  intros Hg. unfold generateEntry, bind, this, ret, when. now rewrite Hg.
Qed.

Lemma override_present n v e s :
  Map_get n (priv_DB s) = Some e ->
  override n v s =
    Ok tt (after_mirror
             (sql_replace {| row_id := DataBase.id e; row_name := n;
                             row_data := JSON_stringify v |})
             (set_DB (Map_set n (DataBase.mk (DataBase.id e) n v) (priv_DB s)) s)).
Proof.
  intros Hg. unfold override.
  unfold bind at 1. unfold this at 1.
  assert (Hh : Map_has n (priv_DB s) = true) by (apply Map_has_true; eauto).
  rewrite Hh. cbn [negb].
  unfold bind at 1. rewrite (generateEntry_override _ _ _ _ Hg).
  unfold bind, modify. now rewrite mirror_Ok.
Qed.

(** C9: [override] on an existing entry returns normally; afterwards the
    entry fetched under that name has the id and the name it had before and
    the new data, every other name fetches what it did, the names keep
    their order, and the id index and the id counter are untouched. *)
Theorem override_frame (s : Stowrage) (n : string) (e : DataBase.t) (v : JsValue) :
  reachable s ->
  fetch n s = Ok e s ->
  exists s',
    override n v s = Ok tt s' /\
    fetch n s' = Ok (DataBase.mk (DataBase.id e) (DataBase.name e) v) s' /\
    (forall n', n' <> n -> Map_get n' (priv_DB s') = Map_get n' (priv_DB s)) /\
    Map_keys (priv_DB s') = Map_keys (priv_DB s) /\
    priv_IDMap s' = priv_IDMap s /\
    priv_id s' = priv_id s /\
    totalEntries s' = Ok (Map_size (priv_DB s)) s'.
Proof.
  intros Hr Hf.
  assert (Hg : Map_get n (priv_DB s) = Some e).
  { unfold fetch, bind, this, ret, throw in Hf.
    destruct (Map_get n (priv_DB s)); congruence. }
  assert (Hn : DataBase.name e = n) by (eapply Inv_names_get; eauto using reachable_Inv).
  assert (Hh : Map_has n (priv_DB s) = true) by (apply Map_has_true; eauto).
  eexists. split; [apply (override_present _ v _ _ Hg)|].
  unfold fetch, totalEntries, bind, this, ret.
  autorewrite with stow_fields. simpl.
  rewrite Map_get_set_eq, Hn.
  repeat split.
  - intros n' Hne. apply Map_get_set_neq. congruence.
  - now apply Map_keys_set_present.
  - now rewrite Map_size_set_present.
Qed.

Lemma override_frame_witness :
  exists s',
    override "a" (JStr "new") store_a_b = Ok tt s' /\
    fetch "a" s' = Ok (DataBase.mk 0 "a" (JStr "new")) s' /\
    fetch "b" s' = Ok (DataBase.mk 1 "b" (JNum 2)) s'.
Proof.
  destruct (override_frame store_a_b "a" (DataBase.mk 0 "a" (JNum 1)) (JStr "new"))
    as (s' & Ho & Hf & Hother & _).
  - apply reachable_perform_all, reachable_new.
  - reflexivity.
  - exists s'. split; [exact Ho|]. split; [exact Hf|].
    unfold fetch, bind, this. rewrite Hother by discriminate. reflexivity.
Defined.

(** ** deleteByRange *)

Lemma outside_range_not_in start length i :
  outside_range start (start + length) i = true <-> ~ in_range start length i.
Proof.
  unfold outside_range, in_range.
  rewrite orb_true_iff, Z.ltb_lt, Z.gtb_ltb, Z.ltb_lt. lia.
Qed.

Lemma deleteByRange_clear_run start length s :
  (start + length >= Map_size (priv_DB s))%Z ->
  deleteByRange start length s =
    Ok tt (after_mirror sql_delete_all
             (set_id 0 (set_IDMap [] (set_DB [] s)))).
Proof.
  intros Hge. unfold deleteByRange. unfold bind at 1. unfold this at 1.
  assert (Hb : (start + length >=? Map_size (priv_DB s))%Z = true)
    by (rewrite Z.geb_leb; apply Z.leb_le; lia).
  rewrite Hb. unfold bind, modify. now rewrite mirror_Ok.
Qed.

Lemma deleteByRange_filter_run start length s :
  NoDup (Map_keys (priv_DB s)) ->
  NoDup (Map_keys (priv_IDMap s)) ->
  (start + length < Map_size (priv_DB s))%Z ->
  deleteByRange start length s =
    Ok tt (after_mirror (sql_delete_between start (start + length))
             (set_IDMap
                (List.filter (fun entry => outside_range start (start + length) (fst entry))
                   (priv_IDMap s))
                (set_DB
                   (List.filter
                      (fun entry => outside_range start (start + length)
                                      (DataBase.id (snd entry)))
                      (priv_DB s))
                   s))).
Proof.
  intros HD HI Hlt. unfold deleteByRange. unfold bind at 1. unfold this at 1.
  assert (Hb : (start + length >=? Map_size (priv_DB s))%Z = false)
    by (rewrite Z.geb_leb; apply Z.leb_gt; lia).
  rewrite Hb. unfold bind, modify. rewrite mirror_Ok. simpl. unfold Map_entries.
  rewrite !Map_new_NoDup; auto using NoDup_keys_filter.
Qed.

(** ** What an insert does to the instance *)

Lemma generateEntry_insert n v s :
  generateEntry n v false s = Ok (DataBase.mk (priv_id s) n v) (counted n v s).
Proof.
  unfold generateEntry, counted, cap_check.
  unfold bind, this, modify, ret, when. simpl.
  rewrite mirror_Ok.
  destruct (maxEntries _) as [max|]; [|reflexivity].
  destruct (_ && _); [|reflexivity].
  destruct (truthy_name _); simpl; now rewrite mirror_Ok.
Qed.

Lemma add_absent n v s :
  Map_has n (priv_DB s) = false -> add n v s = Ok tt (inserted n v s).
Proof.
  intros Hh. unfold add. unfold bind at 1. unfold this at 1. rewrite Hh.
  unfold bind at 1. rewrite generateEntry_insert. reflexivity.
Qed.

Lemma ensure_absent n v s :
  Map_has n (priv_DB s) = false ->
  ensure n v s = Ok (DataBase.mk (priv_id s) n v) (inserted n v s).
Proof.
  intros Hh. unfold ensure. unfold bind at 1. unfold this at 1. rewrite Hh.
  unfold bind at 1. rewrite generateEntry_insert. reflexivity.
Qed.

Lemma cap_check_fields s :
  priv_id (cap_check s) = priv_id s /\
  priv_IDMap (cap_check s) = priv_IDMap s /\
  maxEntries (cap_check s) = maxEntries s /\
  name (cap_check s) = name s /\
  isPersistent (cap_check s) = isPersistent s.
Proof.
  unfold cap_check. destruct (maxEntries s) as [max|] eqn:Hm; [|tauto].
  destruct (_ && _); [|tauto].
  autorewrite with stow_fields. destruct (truthy_name _); simpl; tauto.
Qed.

Lemma cap_check_id s : priv_id (cap_check s) = priv_id s.
Proof. apply cap_check_fields. Qed.

Lemma cap_check_IDMap s : priv_IDMap (cap_check s) = priv_IDMap s.
Proof. apply cap_check_fields. Qed.

Lemma cap_check_maxEntries s : maxEntries (cap_check s) = maxEntries s.
Proof. apply cap_check_fields. Qed.

#[export] Hint Rewrite cap_check_id cap_check_IDMap cap_check_maxEntries : stow_fields.

(** Nothing is evicted while the count before the insert is within the cap,
    nor when no cap is set. *)
Lemma cap_check_DB_within s :
  (forall max, maxEntries s = Some max -> max <> 0%Z -> (Map_size (priv_DB s) <= max)%Z) ->
  priv_DB (cap_check s) = priv_DB s.
Proof.
  intros Hw. unfold cap_check. destruct (maxEntries s) as [max|]; [|reflexivity].
  simpl. destruct (Z.eqb_spec max 0); simpl; [reflexivity|].
  specialize (Hw max eq_refl n).
  assert (Hb : (Map_size (priv_DB s) >? max)%Z = false)
    by (rewrite Z.gtb_ltb; apply Z.ltb_ge; lia).
  now rewrite Hb.
Qed.

(** Nothing is evicted either when the id index is empty. *)
Lemma cap_check_DB_no_ids s : priv_IDMap s = [] -> priv_DB (cap_check s) = priv_DB s.
Proof.
  intros HI. unfold cap_check. destruct (maxEntries s) as [max|]; [|reflexivity].
  destruct (_ && _); [|reflexivity].
  rewrite HI. simpl. now autorewrite with stow_fields.
Qed.

Lemma counted_id n v s : priv_id (counted n v s) = (priv_id s + 1)%Z.
Proof. unfold counted. now autorewrite with stow_fields. Qed.

Lemma counted_IDMap n v s : priv_IDMap (counted n v s) = priv_IDMap s.
Proof. unfold counted. now autorewrite with stow_fields. Qed.

Lemma counted_maxEntries n v s : maxEntries (counted n v s) = maxEntries s.
Proof. unfold counted. now autorewrite with stow_fields. Qed.

#[export] Hint Rewrite counted_id counted_IDMap counted_maxEntries : stow_fields.

Lemma counted_DB_within n v s :
  (forall max, maxEntries s = Some max -> max <> 0%Z -> (Map_size (priv_DB s) <= max)%Z) ->
  priv_DB (counted n v s) = priv_DB s.
Proof.
  intros Hw. unfold counted. rewrite cap_check_DB_within; autorewrite with stow_fields; auto.
Qed.

Lemma counted_DB_no_ids n v s : priv_IDMap s = [] -> priv_DB (counted n v s) = priv_DB s.
Proof.
  intros HI. unfold counted. rewrite cap_check_DB_no_ids; now autorewrite with stow_fields.
Qed.

Lemma totalEntries_run s : totalEntries s = Ok (Map_size (priv_DB s)) s.
Proof. reflexivity. Qed.

(** A name that is not in the store can be added; afterwards [has] finds it
    and [fetch] returns the entry with the value and the id the counter
    had. *)
Lemma add_then_has_fetch n v s :
  has n s = Ok false s ->
  exists s',
    add n v s = Ok tt s' /\
    has n s' = Ok true s' /\
    fetch n s' = Ok (DataBase.mk (priv_id s) n v) s'.
Proof.
  intros Hhas.
  assert (Hh : Map_has n (priv_DB s) = false)
    by (unfold has, bind, this, ret in Hhas; congruence).
  exists (inserted n v s). split; [now apply add_absent|].
  split.
  - unfold has, bind, this, ret. f_equal. apply Map_has_true.
    eexists. unfold inserted. simpl. apply Map_get_set_eq.
  - unfold fetch, bind, this, ret. unfold inserted at 1. simpl.
    now rewrite Map_get_set_eq.
Qed.

Lemma fetch_inserted n v s :
  fetch n (inserted n v s) = Ok (DataBase.mk (priv_id s) n v) (inserted n v s).
Proof.
  unfold fetch, bind, this, ret. unfold inserted at 1. simpl.
  now rewrite Map_get_set_eq.
Qed.

(** C6: when [start + length] is at least the number of entries,
    [deleteByRange] returns normally with both indices empty and the id
    counter at zero, so the entry added next, by [ensure] or by [add],
    gets id 0. *)
Theorem deleteByRange_full_clear (s : Stowrage) (start length : Z) :
  (start + length >= Map_size (priv_DB s))%Z ->
  exists s',
    deleteByRange start length s = Ok tt s' /\
    priv_DB s' = [] /\
    priv_IDMap s' = [] /\
    priv_id s' = 0%Z /\
    totalEntries s' = Ok 0%Z s' /\
    (forall n v, exists s'',
        ensure n v s' = Ok (DataBase.mk 0 n v) s'' /\
        fetch n s'' = Ok (DataBase.mk 0 n v) s'') /\
    (forall n v, exists s'',
        add n v s' = Ok tt s'' /\
        fetch n s'' = Ok (DataBase.mk 0 n v) s'').
Proof.
  intros Hge. eexists. split; [now apply deleteByRange_clear_run|].
  set (s' := after_mirror _ _).
  assert (HD : priv_DB s' = []) by (unfold s'; now autorewrite with stow_fields).
  assert (HI : priv_IDMap s' = []) by (unfold s'; now autorewrite with stow_fields).
  assert (Hi : priv_id s' = 0%Z) by (unfold s'; now autorewrite with stow_fields).
  assert (Hh : forall n, Map_has n (priv_DB s') = false) by (intros n; now rewrite HD).
  repeat split; auto.
  - rewrite totalEntries_run. now rewrite HD.
  - intros n v. exists (inserted n v s').
    rewrite (ensure_absent _ _ _ (Hh n)), fetch_inserted, Hi. auto.
  - intros n v. exists (inserted n v s').
    rewrite (add_absent _ _ _ (Hh n)), fetch_inserted, Hi. auto.
Qed.

(** [deleteByRange(1, 1)] on the store holding "a" (id 0) and "b" (id 1):
    1 + 1 covers the count, everything goes and "z" is added with id 0. *)
Lemma deleteByRange_full_clear_witness :
  exists s',
    deleteByRange 1 1 store_a_b = Ok tt s' /\
    priv_DB s' = [] /\
    priv_IDMap s' = [] /\
    priv_id s' = 0%Z /\
    exists s'',
      ensure "z" (JNum 9) s' = Ok (DataBase.mk 0 "z" (JNum 9)) s''.
Proof.
  destruct (deleteByRange_full_clear store_a_b 1 1) as (s' & Hrun & HD & HI & Hi & _ & He & _).
  - vm_compute. discriminate.
  - exists s'. repeat (split; [assumption|]).
    destruct (He "z" (JNum 9)) as (s'' & Hens & _). now exists s''.
Defined.

(** C5: when [start + length] is below the number of entries,
    [deleteByRange] returns normally; a name is still in the name index
    exactly when it was there with an id outside [start, start + length],
    an id is still in the id index exactly when it was there and lies
    outside that range, the survivors keep their entries and their order,
    and the id counter is untouched.  In particular, after [add("a", 1)]
    and [add("b", 2)], [deleteByRange(0, 0)] leaves exactly the entry "b"
    with id 1. *)
Theorem deleteByRange_partial :
  (forall (s : Stowrage) (start length : Z),
      reachable s ->
      (start + length < Map_size (priv_DB s))%Z ->
      exists s',
        deleteByRange start length s = Ok tt s' /\
        (forall n e, Map_get n (priv_DB s') = Some e <->
                     Map_get n (priv_DB s) = Some e /\
                     ~ in_range start length (DataBase.id e)) /\
        (forall i n, Map_get i (priv_IDMap s') = Some n <->
                     Map_get i (priv_IDMap s) = Some n /\ ~ in_range start length i) /\
        priv_DB s' =
          List.filter (fun kv => outside_range start (start + length) (DataBase.id (snd kv)))
            (priv_DB s) /\
        priv_IDMap s' =
          List.filter (fun kv => outside_range start (start + length) (fst kv))
            (priv_IDMap s) /\
        priv_id s' = priv_id s) /\
  (exists s',
      deleteByRange 0 0 store_a_b = Ok tt s' /\
      priv_DB s' = [("b", DataBase.mk 1 "b" (JNum 2))] /\
      priv_IDMap s' = [(1%Z, "b")]).
Proof.
  split.
  - intros s start length Hr Hlt.
    pose proof (reachable_Inv s Hr) as HI.
    eexists. split; [apply deleteByRange_filter_run; auto; apply HI|].
    autorewrite with stow_fields. simpl.
    split; [|split; [|auto]].
    + intros n e. rewrite Map_get_filter by apply HI. simpl.
      destruct (Map_get n (priv_DB s)) as [e0|]; [|split; [discriminate|intros [? _]; discriminate]].
      destruct (outside_range _ _ _) eqn:Ho.
      * apply outside_range_not_in in Ho.
        split; [intros [= <-]; auto | intros [Hg _]; exact Hg].
      * split; [discriminate|]. intros [[= <-] Hout].
        apply outside_range_not_in in Hout. congruence.
    + intros i n. rewrite Map_get_filter by apply HI. simpl.
      destruct (Map_get i (priv_IDMap s)) as [n0|]; [|split; [discriminate|intros [? _]; discriminate]].
      destruct (outside_range _ _ _) eqn:Ho.
      * apply outside_range_not_in in Ho.
        split; [intros [= <-]; auto | intros [Hg _]; exact Hg].
      * split; [discriminate|]. intros [_ Hout].
        apply outside_range_not_in in Hout. congruence.
  - eexists. split; [vm_compute; reflexivity|]. split; reflexivity.
Qed.

Lemma deleteByRange_partial_witness :
  reachable store_a_b /\
  (0 + 0 < Map_size (priv_DB store_a_b))%Z /\
  exists s',
    deleteByRange 0 0 store_a_b = Ok tt s' /\
    Map_get "a" (priv_DB s') = None /\
    Map_get "b" (priv_DB s') = Some (DataBase.mk 1 "b" (JNum 2)) /\
    Map_get 0%Z (priv_IDMap s') = None /\
    Map_get 1%Z (priv_IDMap s') = Some "b".
Proof.
  assert (Hr : reachable store_a_b) by apply reachable_perform_all, reachable_new.
  split; [exact Hr|]. split; [reflexivity|].
  destruct (proj1 deleteByRange_partial store_a_b 0%Z 0%Z Hr eq_refl)
    as (s' & Hrun & HDB & HID & HD & HI & _).
  exists s'. split; [exact Hrun|].
  rewrite HD, HI. repeat split; reflexivity.
Defined.

(** ** fetchByRange *)

(** C10: when [start + length] is at least the number of entries,
    [fetchByRange] returns every entry of the store, in iteration order and
    whatever its id: the test compares [start + length] with the count, not
    with the ids.  The store holding only "c" with id 2 shows it:
    [fetchByRange(0, 1)] returns that entry although 2 is outside [0, 1). *)
Theorem fetchByRange_whole_store :
  (forall (s : Stowrage) (start length : Z),
      (start + length >= Map_size (priv_DB s))%Z ->
      fetchByRange start length s = Ok (Map_values (priv_DB s)) s /\
      (forall n e, fetch n s = Ok e s ->
                   exists l, fetchByRange start length s = Ok l s /\ In e l)) /\
  (exists e,
      fetchByRange 0 1 store_c_only = Ok [e] store_c_only /\
      DataBase.id e = 2%Z /\
      ~ (0 <= DataBase.id e < 0 + 1)%Z).
Proof.
  split.
  - intros s start length Hge.
    assert (Hrun : fetchByRange start length s = Ok (Map_values (priv_DB s)) s).
    { unfold fetchByRange, bind, this, ret.
      assert (Hb : (start + length >=? Map_size (priv_DB s))%Z = true)
        by (rewrite Z.geb_leb; apply Z.leb_le; lia).
      now rewrite Hb. }
    split; [exact Hrun|].
    intros n e Hf. exists (Map_values (priv_DB s)). split; [exact Hrun|].
    unfold fetch, bind, this, ret, throw in Hf.
    destruct (Map_get n (priv_DB s)) as [e0|] eqn:Hg; [|discriminate].
    injection Hf as ->. apply Map_get_In in Hg.
    unfold Map_values. change e with (snd (n, e)). now apply in_map.
  - exists (DataBase.mk 2 "c" (JNum 3)). split; [reflexivity|].
    split; [reflexivity|]. simpl. lia.
Qed.

Lemma fetchByRange_whole_store_witness :
  (0 + 1 >= Map_size (priv_DB store_c_only))%Z /\
  fetchByRange 0 1 store_c_only = Ok [DataBase.mk 2 "c" (JNum 3)] store_c_only.
Proof.
  split; [vm_compute; discriminate|].
  apply (proj1 fetchByRange_whole_store store_c_only 0%Z 1%Z). vm_compute. discriminate.
Defined.

(** ** setValue *)

Lemma truthy_string_nonempty n : n <> "" -> truthy_string (Some n) = true.
Proof. intros Hne. simpl. now rewrite (proj2 (String.eqb_neq n "") Hne). Qed.

Lemma resolves_Some s nameID n :
  resolves s nameID n ->
  match nameID with
  | inl name => Some name
  | inr id => Map_get id (priv_IDMap s)
  end = Some n.
Proof. destruct nameID; simpl; congruence. Qed.

(** Enters the body of [setValue] for an entry that is found. *)
Ltac setValue_found Hres Hne Hg :=
  unfold setValue; unfold bind at 1; unfold this at 1;
  rewrite (resolves_Some _ _ _ Hres), (truthy_string_nonempty _ Hne);
  cbn [negb]; rewrite Hg.

Lemma write_then_override n e d s :
  Map_get n (priv_DB s) = Some e ->
  (modify (fun s0 => set_DB
      (Map_set n (DataBase.mk (DataBase.id e) (DataBase.name e) d) (priv_DB s0)) s0) ;;
   override n d) s = Ok tt (rewritten n e d s).
Proof.
  intros Hg. unfold bind at 1. unfold modify at 1.
  erewrite override_present by (simpl; apply Map_get_set_eq).
  reflexivity.
Qed.


Lemma setValue_scalar nameID n e o s :
  resolves s nameID n -> n <> "" -> Map_get n (priv_DB s) = Some e ->
  typeof_object (DataBase.data e) = false ->
  setValue nameID o s = Ok tt (rewritten n e (value o) s).
Proof.
  intros Hres Hne Hg Hty. setValue_found Hres Hne Hg. rewrite Hty.
  unfold bind at 1. unfold ret at 1. now apply write_then_override.
Qed.

Lemma setValue_no_key nameID n e o s :
  resolves s nameID n -> n <> "" -> Map_get n (priv_DB s) = Some e ->
  typeof_object (DataBase.data e) = true -> key o = None ->
  setValue nameID o s = Throw KeyUndefinedError s.
Proof.
  intros Hres Hne Hg Hty Hk. setValue_found Hres Hne Hg. rewrite Hty, Hk. reflexivity.
Qed.

Lemma setValue_rejected_key nameID n e o s k :
  resolves s nameID n -> n <> "" -> Map_get n (priv_DB s) = Some e ->
  typeof_object (DataBase.data e) = true -> DataBase.data e <> JNull ->
  key o = Some k -> typeof_prop_undefined (DataBase.data e) k = true ->
  setValue nameID o s = Throw (InvalidKeyError k (name_or_unnamed s)) s.
Proof.
  intros Hres Hne Hg Hty Hnn Hk Hp. setValue_found Hres Hne Hg.
  rewrite Hty, Hk. destruct (DataBase.data e); try congruence; now rewrite Hp.
Qed.

Lemma setValue_accepted_key nameID n e o s k :
  resolves s nameID n -> n <> "" -> Map_get n (priv_DB s) = Some e ->
  typeof_object (DataBase.data e) = true -> DataBase.data e <> JNull ->
  key o = Some k -> typeof_prop_undefined (DataBase.data e) k = false ->
  setValue nameID o s =
    Ok tt (rewritten n e (assign_prop (DataBase.data e) k (value o)) s).
Proof.
  intros Hres Hne Hg Hty Hnn Hk Hp. setValue_found Hres Hne Hg.
  rewrite Hty, Hk.
  destruct (DataBase.data e); try congruence; rewrite Hp;
    unfold bind at 1; unfold ret at 1; now apply write_then_override.
Qed.

Lemma setValue_null nameID n e o s k :
  resolves s nameID n -> n <> "" -> Map_get n (priv_DB s) = Some e ->
  DataBase.data e = JNull -> key o = Some k ->
  setValue nameID o s = Throw TypeError s.
Proof.
  intros Hres Hne Hg Hd Hk. setValue_found Hres Hne Hg. rewrite Hd, Hk. reflexivity.
Qed.

(** *** Reading and writing the properties of a plain object *)









(** A key that names a member of [Object.prototype] passes the test of
    [setValue] on an object that has no property of that name: "toString" on
    [{ a: 1, b: 2 }] is accepted and becomes a property of the data. *)
Lemma setValue_inherited_key :
  exists s',
    setValue (inl "x") {| key := Some "toString"; value := JNum 5 |} store_record =
      Ok tt s' /\
    fetch "x" s' =
      Ok (DataBase.mk 0 "x" (JObj [("a", JNum 1); ("b", JNum 2); ("toString", JNum 5)])) s'.
Proof. eexists. split; vm_compute; reflexivity. Qed.




(** ** setValue on a name or an id that is absent *)

Lemma setValue_absent_name n o s :
  n <> "" -> Map_get n (priv_DB s) = None ->
  setValue (inl n) o s = Throw TypeError s.
Proof.
  intros Hne Hg. unfold setValue. unfold bind at 1. unfold this at 1.
  rewrite (truthy_string_nonempty _ Hne). cbn [negb]. now rewrite Hg.
Qed.

Lemma setValue_empty_name o s :
  setValue (inl "") o s = Throw (NameNotFoundError "") s.
Proof. reflexivity. Qed.

Lemma setValue_absent_id i o s :
  Map_get i (priv_IDMap s) = None ->
  setValue (inr i) o s = Throw (IDNotFoundError None) s.
Proof.
  intros Hg. unfold setValue. unfold bind at 1. unfold this at 1. now rewrite Hg.
Qed.

(** C4, the code at a failing input: on the store holding "a" and "b",
    the name "ghost" and the id 7 are absent.  [override] and [fetchByID]
    report them with NameNotFoundError("ghost") and IDNotFoundError(7);
    [setValue] by that name ends in the runtime's TypeError (it reads
    [.data] of the missing entry) and [setValue] by that id throws
    IDNotFoundError carrying [undefined], not 7.  The instance is left as
    it was in each case. *)
Theorem setValue_not_found_errors :
  has "ghost" store_a_b = Ok false store_a_b /\
  override "ghost" (JNum 5) store_a_b = Throw (NameNotFoundError "ghost") store_a_b /\
  setValue (inl "ghost") {| key := None; value := JNum 5 |} store_a_b =
    Throw TypeError store_a_b /\
  fetchByID 7 store_a_b = Throw (IDNotFoundError (Some 7%Z)) store_a_b /\
  setValue (inr 7%Z) {| key := None; value := JNum 5 |} store_a_b =
    Throw (IDNotFoundError None) store_a_b.
Proof.
  split; [reflexivity|]. split; [reflexivity|].
  split; [apply setValue_absent_name; [discriminate | reflexivity]|].
  split; [reflexivity|].
  apply setValue_absent_id. reflexivity.
Qed.

(** ** The cap *)

Lemma inserted_DB_within n v s :
  (forall max, maxEntries s = Some max -> max <> 0%Z -> (Map_size (priv_DB s) <= max)%Z) ->
  priv_DB (inserted n v s) = Map_set n (DataBase.mk (priv_id s) n v) (priv_DB s).
Proof. intros Hw. unfold inserted. simpl. now rewrite counted_DB_within. Qed.

Lemma inserted_IDMap n v s :
  priv_IDMap (inserted n v s) = Map_set (priv_id s) n (priv_IDMap s).
Proof. unfold inserted. simpl. now autorewrite with stow_fields. Qed.

Lemma inserted_id n v s : priv_id (inserted n v s) = (priv_id s + 1)%Z.
Proof. unfold inserted. simpl. now autorewrite with stow_fields. Qed.

Lemma inserted_maxEntries n v s : maxEntries (inserted n v s) = maxEntries s.
Proof. unfold inserted. simpl. now autorewrite with stow_fields. Qed.

(** While the count stays within [maxEntries + 1], adding distinct new
    names evicts nothing: every add enlarges #DB by one. *)
Lemma add_all_within_cap (N : Z) (entries : list (string * JsValue)) :
  forall s,
    maxEntries s = Some N ->
    NoDup (map fst entries) ->
    (forall n, In n (map fst entries) -> Map_get n (priv_DB s) = None) ->
    (Map_size (priv_DB s) + Z.of_nat (List.length entries) <= N + 1)%Z ->
    Map_size (priv_DB (add_all entries s)) =
      (Map_size (priv_DB s) + Z.of_nat (List.length entries))%Z /\
    (forall n e, Map_get n (priv_DB s) = Some e ->
                 Map_get n (priv_DB (add_all entries s)) = Some e).
Proof.
  induction entries as [|[n v] rest IH]; intros s Hmax Hnd Hnew Hsize.
  - unfold add_all. simpl. split; [lia | auto].
  - simpl in Hnd. inversion Hnd as [|? ? Hnotin Hnd']; subst.
    assert (Hn : Map_get n (priv_DB s) = None) by (apply Hnew; simpl; auto).
    assert (Hw : forall max, maxEntries s = Some max -> max <> 0%Z ->
                   (Map_size (priv_DB s) <= max)%Z).
    { intros max Hm _. rewrite Hmax in Hm. injection Hm as <-.
      simpl List.length in Hsize. lia. }
    unfold add_all. simpl. rewrite add_absent by now apply Map_has_false.
    simpl. fold (add_all rest (inserted n v s)).
    destruct (IH (inserted n v s)) as [IHsize IHkeep]; auto.
    + now rewrite inserted_maxEntries.
    + intros n' Hin. rewrite inserted_DB_within by assumption.
      rewrite Map_get_set_neq; [apply Hnew; simpl; auto | congruence].
    + rewrite inserted_DB_within, Map_size_set_fresh by assumption.
      simpl List.length in Hsize. lia.
    + rewrite inserted_DB_within, Map_size_set_fresh in IHsize by assumption.
      split.
      * rewrite IHsize. simpl List.length. lia.
      * intros n0 e0 Hg0. apply IHkeep. rewrite inserted_DB_within by assumption.
        rewrite Map_get_set_neq; [assumption | congruence].
Qed.

(** With [maxEntries = N], adding [N + 1] distinct names to a new store
    leaves [N + 1] entries, the first one (id 0) among them. *)
Lemma cap_exceeded_for_every_N (N : Z) (n0 : string) (v0 : JsValue)
    (rest : list (string * JsValue)) :
  (0 < N)%Z ->
  NoDup (n0 :: map fst rest) ->
  Z.of_nat (List.length rest) = N ->
  let s := add_all ((n0, v0) :: rest) (capped_store N) in
  totalEntries s = Ok (N + 1)%Z s /\
  fetch n0 s = Ok (DataBase.mk 0 n0 v0) s.
Proof.
  intros HN Hnd Hlen s.
  assert (Hs : s = add_all rest (inserted n0 v0 (capped_store N))).
  { unfold s, add_all. cbn [map perform_all fold_left perform fst snd].
    now rewrite add_absent by reflexivity. }
  inversion Hnd as [|? ? Hnotin Hnd']; subst.
  set (s1 := inserted n0 v0 (capped_store (Z.of_nat (List.length rest)))) in *.
  assert (Hmax : maxEntries s1 = Some (Z.of_nat (List.length rest)))
    by (unfold s1; now rewrite inserted_maxEntries).
  assert (HDB : priv_DB s1 = [(n0, DataBase.mk 0 n0 v0)]).
  { unfold s1. rewrite inserted_DB_within; [reflexivity|].
    intros max Hm _. injection Hm as <-. unfold Map_size. simpl. lia. }
  assert (Hnew : forall n, In n (map fst rest) -> Map_get n (priv_DB s1) = None).
  { intros n Hin. rewrite HDB. simpl.
    destruct (String.eqb_spec n n0); [congruence | reflexivity]. }
  assert (Hsize : (Map_size (priv_DB s1) + Z.of_nat (List.length rest)
                   <= Z.of_nat (List.length rest) + 1)%Z).
  { rewrite HDB. unfold Map_size. simpl List.length. lia. }
  destruct (add_all_within_cap _ rest s1 Hmax Hnd' Hnew Hsize) as [Hcount Hkeep].
  rewrite totalEntries_run. unfold fetch, bind, this, ret.
  rewrite Hs, Hcount, (Hkeep n0 (DataBase.mk 0 n0 v0)).
  - split; [|reflexivity]. rewrite HDB. unfold Map_size. simpl List.length. f_equal. lia.
  - rewrite HDB. simpl. now rewrite String.eqb_refl.
Qed.

(** C1, the code at failing inputs.  With [maxEntries = 1], two adds leave
    two entries and the entry with id 0 is still there; a third add leaves
    three.  With [maxEntries = 2], three adds leave three entries; the
    fourth add ("d", id 3) finds three entries, more than the cap, and
    evicts the entry whose id is [#id - maxEntries = 4 - 2 = 2], that is
    "c": three entries remain, the oldest ("a", id 0) among them. *)
Theorem cap_not_enforced :
  let s2 := add_all [("a", JNum 1); ("b", JNum 2)] (capped_store 1) in
  let s3 := add_all [("a", JNum 1); ("b", JNum 2); ("c", JNum 3)] (capped_store 1) in
  let t3 := add_all [("a", JNum 1); ("b", JNum 2); ("c", JNum 3)] (capped_store 2) in
  let t4 := add_all [("a", JNum 1); ("b", JNum 2); ("c", JNum 3); ("d", JNum 4)]
              (capped_store 2) in
  totalEntries s2 = Ok 2%Z s2 /\
  fetch "a" s2 = Ok (DataBase.mk 0 "a" (JNum 1)) s2 /\
  totalEntries s3 = Ok 3%Z s3 /\
  totalEntries t3 = Ok 3%Z t3 /\
  fetch "a" t3 = Ok (DataBase.mk 0 "a" (JNum 1)) t3 /\
  totalEntries t4 = Ok 3%Z t4 /\
  fetch "a" t4 = Ok (DataBase.mk 0 "a" (JNum 1)) t4 /\
  has "c" t4 = Ok false t4 /\
  has "d" t4 = Ok true t4.
Proof. repeat split; reflexivity. Qed.

(** C2, the code at a failing input.  With [maxEntries = 2], after adding
    "a", "b", "c", "d" the eviction has removed "c" from the name index
    only: the name index has 3 entries, the id index 4, and id 2 still
    leads to the name "c", which [fetchByID] then fails to find. *)
Theorem eviction_leaves_id_behind :
  let s := add_all [("a", JNum 1); ("b", JNum 2); ("c", JNum 3); ("d", JNum 4)]
             (capped_store 2) in
  Map_size (priv_DB s) = 3%Z /\
  Map_size (priv_IDMap s) = 4%Z /\
  Map_keys (priv_DB s) = ["a"; "b"; "d"] /\
  priv_IDMap s = [(0%Z, "a"); (1%Z, "b"); (2%Z, "c"); (3%Z, "d")] /\
  has "c" s = Ok false s /\
  fetchByID 2 s = Throw (NameNotFoundError "c") s.
Proof. repeat split; reflexivity. Qed.

(** ** Persistence *)

(** C3, the code at failing inputs.  After [add("a", 1)] and
    [override("a", 2)] the file holds two rows for "a" (REPLACE finds no
    key to replace on), so [init] on a fresh instance adds "a" with 1 and
    throws NameDuplicationError on the second row: the reopened store has
    the old value.  With adds only, the first reopening gives the same
    entries, but the replay inserts every row again, and the second
    reopening throws NameDuplicationError. *)
Theorem reopen_after_override :
  fetch "a" session_override = Ok (DataBase.mk 0 "a" (JNum 2)) session_override /\
  file_of session_override =
    [ {| row_id := 0; row_name := "a"; row_data := SqlJson (JNum 1) |};
      {| row_id := 0; row_name := "a"; row_data := SqlJson (JNum 2) |} ] /\
  (exists s',
      init (file_of session_override) (persistent_store "s") =
        Throw (NameDuplicationError "a") s' /\
      fetch "a" s' = Ok (DataBase.mk 0 "a" (JNum 1)) s') /\
  (exists s',
      init (file_of session_adds) (persistent_store "s") = Ok tt s' /\
      priv_DB s' = priv_DB session_adds /\
      exists s'',
        init (file_of (final (close s'))) (persistent_store "s") =
          Throw (NameDuplicationError "a") s'').
Proof.
  split; [reflexivity|]. split; [reflexivity|]. split.
  - eexists. split; [vm_compute; reflexivity | reflexivity].
  - eexists. split; [vm_compute; reflexivity|]. split; [reflexivity|].
    eexists. vm_compute. reflexivity.
Qed.

(** ** The two indices in step *)

Lemma paired_empty next : paired [] [] next.
Proof. split; simpl; try constructor; discriminate. Qed.

Lemma paired_insert db ids next n v :
  paired db ids next -> Map_get n db = None ->
  paired (Map_set n (DataBase.mk next n v) db) (Map_set next n ids) (next + 1).
Proof.
  intros [Hkd Hki Hni Hin Hb] Hnew.
  assert (Hfresh : Map_get next ids = None).
  { destruct (Map_get next ids) as [m|] eqn:Hg; [|reflexivity].
    apply Hb in Hg. lia. }
  split.
  - now apply NoDup_keys_set.
  - now apply NoDup_keys_set.
  - intros n' e. destruct (String.eqb_spec n n') as [<-|Hne].
    + rewrite Map_get_set_eq. intros [= <-]. simpl. apply Map_get_set_eq.
    + rewrite Map_get_set_neq by assumption. intros Hg.
      pose proof (Hni _ _ Hg) as Hid.
      rewrite Map_get_set_neq; [assumption|].
      intros Heq. rewrite <- Heq in Hid. congruence.
  - intros i n'. destruct (Z.eq_dec next i) as [<-|Hne].
    + rewrite Map_get_set_eq. intros [= <-].
      exists (DataBase.mk next n v). split; [apply Map_get_set_eq | reflexivity].
    + rewrite Map_get_set_neq by assumption. intros Hg.
      destruct (Hin _ _ Hg) as (e & He & Hid).
      exists e. split; [|assumption].
      rewrite Map_get_set_neq; [assumption | congruence].
  - intros i n'. destruct (Z.eq_dec next i) as [<-|Hne].
    + intros _. lia.
    + rewrite Map_get_set_neq by assumption. intros Hg. apply Hb in Hg. lia.
Qed.

Lemma paired_remove db ids next n e :
  paired db ids next -> Map_get n db = Some e ->
  paired (Map_delete n db) (Map_delete (DataBase.id e) ids) next.
Proof.
  intros [Hkd Hki Hni Hin Hb] He.
  split.
  - now apply NoDup_keys_delete.
  - now apply NoDup_keys_delete.
  - intros n' e'. destruct (String.eqb_spec n n') as [<-|Hne].
    + now rewrite Map_get_delete_eq.
    + rewrite Map_get_delete_neq by assumption. intros Hg.
      rewrite Map_get_delete_neq; [now apply Hni|].
      intros Heq. apply Hni in Hg. apply Hni in He. congruence.
  - intros i n'. destruct (Z.eq_dec (DataBase.id e) i) as [<-|Hne].
    + now rewrite Map_get_delete_eq.
    + rewrite Map_get_delete_neq by assumption. intros Hg.
      destruct (Hin _ _ Hg) as (e' & He' & Hid).
      exists e'. split; [|assumption].
      rewrite Map_get_delete_neq; [assumption|]. intros <-. congruence.
  - intros i n'. destruct (Z.eq_dec (DataBase.id e) i) as [<-|Hne].
    + now rewrite Map_get_delete_eq.
    + rewrite Map_get_delete_neq by assumption. apply Hb.
Qed.

Lemma paired_replace db ids next n e e' :
  paired db ids next -> Map_get n db = Some e -> DataBase.id e' = DataBase.id e ->
  paired (Map_set n e' db) ids next.
Proof.
  intros [Hkd Hki Hni Hin Hb] He Hid.
  split; auto.
  - now apply NoDup_keys_set.
  - intros n' e0. destruct (String.eqb_spec n n') as [<-|Hne].
    + rewrite Map_get_set_eq. intros [= <-]. rewrite Hid. now apply Hni.
    + rewrite Map_get_set_neq by assumption. apply Hni.
  - intros i n' Hg. destruct (Hin _ _ Hg) as (e0 & He0 & Hi0).
    destruct (String.eqb_spec n n') as [<-|Hne].
    + exists e'. split; [apply Map_get_set_eq | congruence].
    + exists e0. split; [|assumption]. now rewrite Map_get_set_neq.
Qed.

Lemma paired_filter db ids next (p : Z -> bool) :
  paired db ids next ->
  paired (List.filter (fun kv => p (DataBase.id (snd kv))) db)
         (List.filter (fun kv => p (fst kv)) ids) next.
Proof.
  intros [Hkd Hki Hni Hin Hb].
  split.
  - now apply NoDup_keys_filter.
  - now apply NoDup_keys_filter.
  - intros n e. rewrite !Map_get_filter by assumption. simpl.
    destruct (Map_get n db) as [e0|] eqn:Hg; [|discriminate].
    destruct (p (DataBase.id e0)) eqn:Hp; [|discriminate].
    intros [= <-]. rewrite (Hni _ _ Hg). now rewrite Hp.
  - intros i n. rewrite Map_get_filter by assumption. simpl.
    destruct (Map_get i ids) as [n0|] eqn:Hg; [|discriminate].
    destruct (p i) eqn:Hp; [|discriminate].
    intros [= <-]. destruct (Hin _ _ Hg) as (e & He & Hid).
    exists e. split; [|assumption].
    rewrite Map_get_filter by assumption. rewrite He. simpl. now rewrite Hid, Hp.
  - intros i n. rewrite Map_get_filter by assumption. simpl.
    destruct (Map_get i ids) as [n0|] eqn:Hg; [|discriminate].
    intros _. eapply Hb; eauto.
Qed.

(** Paired indices have the same size. *)
Lemma paired_size db ids next : paired db ids next -> Map_size db = Map_size ids.
Proof.
  intros [Hkd Hki Hni Hin Hb]. unfold Map_size. f_equal.
  rewrite <- (length_map (fun kv => DataBase.id (snd kv)) db).
  rewrite <- (length_map fst ids).
  apply Permutation_length, NoDup_Permutation.
  - apply NoDup_map_NoDup_ForallPairs.
    + intros [n1 e1] [n2 e2] H1 H2 Hid. simpl in Hid.
      apply (In_Map_get _ _ _ Hkd) in H1. apply (In_Map_get _ _ _ Hkd) in H2.
      pose proof (Hni _ _ H1) as G1. pose proof (Hni _ _ H2) as G2.
      rewrite Hid in G1. assert (n1 = n2) by congruence. subst.
      f_equal. congruence.
    + now apply (NoDup_map_inv fst).
  - exact Hki.
  - intros i. rewrite !in_map_iff. split.
    + intros [[n e] [Hi Hin']]. simpl in Hi. subst i.
      apply (In_Map_get _ _ _ Hkd) in Hin'. apply Hni in Hin'.
      exists (DataBase.id e, n). split; [reflexivity | now apply Map_get_In].
    + intros [[i' n] [Hi Hin']]. simpl in Hi. subst i'.
      apply (In_Map_get _ _ _ Hki) in Hin'. destruct (Hin _ _ Hin') as (e & He & Hid).
      exists (n, e). split; [assumption | now apply Map_get_In].
Qed.

Lemma in_step_fields s s' :
  maxEntries s' = maxEntries s -> priv_DB s' = priv_DB s ->
  priv_IDMap s' = priv_IDMap s -> priv_id s' = priv_id s ->
  in_step s -> in_step s'.
Proof. unfold in_step. intros -> -> -> ->. auto. Qed.

Lemma no_cap_within s :
  truthy_number (maxEntries s) = false ->
  forall max, maxEntries s = Some max -> max <> 0%Z -> (Map_size (priv_DB s) <= max)%Z.
Proof.
  intros Hcap max Hm Hne. rewrite Hm in Hcap. simpl in Hcap.
  destruct (Z.eqb_spec max 0); [contradiction | discriminate].
Qed.

Lemma truthy_name_Some o n : truthy_name o = Some n -> o = Some n /\ n <> "".
Proof.
  destruct o as [m|]; simpl; [|discriminate].
  destruct (String.eqb_spec m ""); [discriminate|]. intros [= <-]. auto.
Qed.

Lemma add_present n v s :
  Map_has n (priv_DB s) = true -> add n v s = Throw (NameDuplicationError n) s.
Proof. intros Hh. unfold add, bind, this, throw. now rewrite Hh. Qed.

Lemma ensure_present n v s :
  Map_has n (priv_DB s) = true -> ensure n v s = Throw (NameDuplicationError n) s.
Proof. intros Hh. unfold ensure, bind, this, throw. now rewrite Hh. Qed.

Lemma override_absent n v s :
  Map_has n (priv_DB s) = false -> override n v s = Throw (NameNotFoundError n) s.
Proof. intros Hh. unfold override, bind, this, throw. now rewrite Hh. Qed.

Lemma delete_present n e s :
  Map_get n (priv_DB s) = Some e ->
  delete n s =
    Ok tt (after_mirror (sql_delete_id (DataBase.id e))
             (set_IDMap (Map_delete (DataBase.id e) (priv_IDMap s))
                (set_DB (Map_delete n (priv_DB s)) s))).
Proof.
  intros Hg. unfold delete. unfold bind at 1. unfold this at 1. rewrite Hg.
  unfold bind, modify. now rewrite mirror_Ok.
Qed.

Lemma delete_absent n s :
  Map_get n (priv_DB s) = None -> delete n s = Throw (NameNotFoundError n) s.
Proof. intros Hg. unfold delete, bind, this, throw. now rewrite Hg. Qed.

Lemma deleteByID_found i n s :
  truthy_name (Map_get i (priv_IDMap s)) = Some n ->
  deleteByID i s =
    Ok tt (after_mirror (sql_delete_id i)
             (set_DB (Map_delete n (priv_DB s))
                (set_IDMap (Map_delete i (priv_IDMap s)) s))).
Proof.
  intros Hg. unfold deleteByID. unfold bind at 1. unfold this at 1. rewrite Hg.
  unfold bind, modify. now rewrite mirror_Ok.
Qed.

Lemma deleteByID_not_found i s :
  truthy_name (Map_get i (priv_IDMap s)) = None ->
  deleteByID i s = Throw (IDNotFoundError (Some i)) s.
Proof. intros Hg. unfold deleteByID, bind, this, throw. now rewrite Hg. Qed.

Lemma deleteStowrage_run s :
  deleteStowrage s =
    Ok tt (after_mirror sql_delete_all (set_id 0 (set_IDMap [] (set_DB [] s)))).
Proof. unfold deleteStowrage, bind, modify. now rewrite mirror_Ok. Qed.

Lemma setValue_absent_entry nameID n o s :
  resolves s nameID n -> n <> "" -> Map_get n (priv_DB s) = None ->
  setValue nameID o s = Throw TypeError s.
Proof. intros Hres Hne Hg. setValue_found Hres Hne Hg. reflexivity. Qed.

Lemma setValue_resolves_empty nameID o s :
  resolves s nameID "" -> setValue nameID o s = Throw (NameNotFoundError "") s.
Proof.
  intros Hres. unfold setValue. unfold bind at 1. unfold this at 1.
  now rewrite (resolves_Some _ _ _ Hres).
Qed.

(** However [setValue] ends, it has either left the instance as it was or
    rewritten the data of one entry. *)
Lemma setValue_outcome nameID o s :
  (exists err, setValue nameID o s = Throw err s) \/
  (exists n e d, Map_get n (priv_DB s) = Some e /\
                 setValue nameID o s = Ok tt (rewritten n e d s)).
Proof.
  destruct (match nameID with inl m => Some m | inr i => Map_get i (priv_IDMap s) end)
    as [n|] eqn:Hn.
  - assert (Hres : resolves s nameID n) by (destruct nameID; simpl; congruence).
    destruct (String.eqb_spec n "") as [->|Hne].
    { left. eexists. now apply setValue_resolves_empty. }
    destruct (Map_get n (priv_DB s)) as [e|] eqn:Hg.
    2:{ left. eexists. eapply setValue_absent_entry; eauto. }
    destruct (typeof_object (DataBase.data e)) eqn:Hty.
    2:{ right. exists n, e, (value o). split; [assumption|]. now apply setValue_scalar. }
    destruct (key o) as [k|] eqn:Hk.
    2:{ left. eexists. eapply setValue_no_key; eauto. }
    destruct (DataBase.data e) eqn:Hd; try (simpl in Hty; discriminate).
    1:{ left. eexists. eapply setValue_null; eauto. }
    all: rewrite <- Hd in Hty;
      assert (Hnn : DataBase.data e <> JNull) by (rewrite Hd; discriminate);
      destruct (typeof_prop_undefined (DataBase.data e) k) eqn:Hp;
      [ left; eexists; eapply setValue_rejected_key; eauto
      | right; exists n, e, (assign_prop (DataBase.data e) k (value o));
        (split; [assumption|]); eapply setValue_accepted_key; eauto ].
  - left. destruct nameID as [m|i]; [discriminate|].
    eexists. now apply setValue_absent_id.
Qed.

(** *** Every method keeps paired indices paired, when no cap is set *)

Lemma inserted_in_step n v s :
  in_step s -> Map_has n (priv_DB s) = false -> in_step (inserted n v s).
Proof.
  intros [Hcap Hp] Hh. split.
  - now rewrite inserted_maxEntries.
  - rewrite inserted_DB_within by now apply no_cap_within.
    rewrite inserted_IDMap, inserted_id.
    apply paired_insert; [assumption | now apply Map_has_false].
Qed.

Lemma add_in_step n v s : in_step s -> in_step (final (add n v s)).
Proof.
  intros Hs. destruct (Map_has n (priv_DB s)) eqn:Hh.
  - now rewrite add_present.
  - rewrite add_absent by assumption. now apply inserted_in_step.
Qed.

Lemma ensure_in_step n v s : in_step s -> in_step (final (ensure n v s)).
Proof.
  intros Hs. destruct (Map_has n (priv_DB s)) eqn:Hh.
  - now rewrite ensure_present.
  - rewrite ensure_absent by assumption. now apply inserted_in_step.
Qed.

Lemma replay_in_step rows : forall s, in_step s -> in_step (final (replay rows s)).
Proof.
  induction rows as [|[n d] rows IH]; intros s Hs; simpl; [assumption|].
  unfold bind. pose proof (add_in_step n (JSON_parse d) s Hs) as Hadd.
  destruct (add n (JSON_parse d) s) as [[] s'|err s']; simpl in *; auto.
Qed.

Lemma init_in_step file s : in_step s -> in_step (final (init file s)).
Proof.
  intros Hs. unfold init. unfold bind at 1. unfold this at 1.
  destruct (_ && _); [|assumption].
  unfold bind, modify. apply replay_in_step.
  revert Hs. now apply in_step_fields.
Qed.

Lemma delete_in_step n s : in_step s -> in_step (final (delete n s)).
Proof.
  intros [Hcap Hp]. destruct (Map_get n (priv_DB s)) as [e|] eqn:Hg.
  - rewrite (delete_present _ _ _ Hg). split; simpl; autorewrite with stow_fields; simpl.
    + assumption.
    + now apply paired_remove.
  - rewrite delete_absent by assumption. now split.
Qed.

Lemma deleteByID_in_step i s : in_step s -> in_step (final (deleteByID i s)).
Proof.
  intros [Hcap Hp]. destruct (truthy_name (Map_get i (priv_IDMap s))) as [n|] eqn:Hg.
  - rewrite (deleteByID_found _ _ _ Hg). apply truthy_name_Some in Hg as [Hg _].
    destruct (paired_id_name _ _ _ Hp _ _ Hg) as (e & He & <-).
    split; simpl; autorewrite with stow_fields; simpl.
    + assumption.
    + now apply paired_remove.
  - rewrite deleteByID_not_found by assumption. now split.
Qed.

Lemma deleteByRange_in_step start length s :
  in_step s -> in_step (final (deleteByRange start length s)).
Proof.
  intros [Hcap Hp]. destruct (Z_lt_ge_dec (start + length) (Map_size (priv_DB s))) as [Hlt|Hge].
  - rewrite deleteByRange_filter_run by (try assumption; apply Hp).
    split; simpl; autorewrite with stow_fields; simpl.
    + assumption.
    + now apply (paired_filter _ _ _ (outside_range start (start + length))).
  - rewrite deleteByRange_clear_run by assumption.
    split; simpl; autorewrite with stow_fields; simpl.
    + assumption.
    + apply paired_empty.
Qed.

Lemma override_in_step n v s : in_step s -> in_step (final (override n v s)).
Proof.
  intros [Hcap Hp]. destruct (Map_get n (priv_DB s)) as [e|] eqn:Hg.
  - rewrite (override_present _ _ _ _ Hg).
    split; simpl; autorewrite with stow_fields; simpl.
    + assumption.
    + eapply paired_replace; eauto.
  - rewrite override_absent by now apply Map_has_false. now split.
Qed.

Lemma overrideByID_in_step i v s : in_step s -> in_step (final (overrideByID i v s)).
Proof.
  intros Hs. unfold overrideByID. unfold bind at 1. unfold this at 1.
  destruct (truthy_name _); [now apply override_in_step | assumption].
Qed.

Lemma setValue_in_step nameID o s : in_step s -> in_step (final (setValue nameID o s)).
Proof.
  intros [Hcap Hp].
  destruct (setValue_outcome nameID o s) as [[err ->]|(n & e & d & Hg & ->)].
  - now split.
  - split; simpl; unfold rewritten; autorewrite with stow_fields; simpl.
    + assumption.
    + eapply paired_replace with (e := DataBase.mk (DataBase.id e) (DataBase.name e) d).
      * eapply paired_replace with (e := e); eauto.
      * apply Map_get_set_eq.
      * reflexivity.
Qed.

Lemma deleteStowrage_in_step s : in_step s -> in_step (final (deleteStowrage s)).
Proof.
  intros [Hcap Hp]. rewrite deleteStowrage_run.
  split; simpl; autorewrite with stow_fields; simpl.
  - assumption.
  - apply paired_empty.
Qed.

Lemma close_in_step s : in_step s -> in_step (final (close s)).
Proof.
  intros Hs. unfold close, bind, this. destruct (priv_SQLDB s); assumption.
Qed.

Lemma perform_in_step c s : in_step s -> in_step (perform c s).
Proof.
  intros Hs. destruct c; simpl.
  - now apply init_in_step.
  - now apply ensure_in_step.
  - now apply add_in_step.
  - now apply delete_in_step.
  - now apply deleteByID_in_step.
  - now apply deleteByRange_in_step.
  - now apply override_in_step.
  - now apply overrideByID_in_step.
  - now apply setValue_in_step.
  - now apply deleteStowrage_in_step.
  - now apply close_in_step.
Qed.

(** Without a cap the bijection of C2 holds after every sequence of calls:
    only the eviction breaks it. *)
Lemma indices_paired_without_cap options cs :
  truthy_number (maxEntries (new_Stowrage options)) = false ->
  let s := perform_all cs (new_Stowrage options) in
  paired (priv_DB s) (priv_IDMap s) (priv_id s) /\
  Map_size (priv_DB s) = Map_size (priv_IDMap s).
Proof.
  intros Hcap s.
  assert (Hs : in_step s).
  { unfold s. generalize (new_Stowrage options), (conj Hcap (paired_empty 0) : in_step (new_Stowrage options)).
    induction cs as [|c cs IH]; intros s0 Hs0; simpl; [assumption|].
    apply IH. now apply perform_in_step. }
  destruct Hs as [_ Hp]. split; [assumption|]. eapply paired_size; eauto.
Qed.

(** * Further properties of the methods *)

(** ** Insert and look up *)

Lemma truthy_name_nonempty n : n <> "" -> truthy_name (Some n) = Some n.
Proof. intros Hne. simpl. destruct (String.eqb_spec n ""); congruence. Qed.

(** X1: a name that is not in the store can always be added, cap or no cap:
    afterwards [has] finds it, [fetch] returns the entry with the value and
    with the id the counter had, the counter has advanced by one, and (for
    a name that is not the empty string) [fetchByID] of that id returns the
    same entry. *)
Theorem add_then_lookup (s : Stowrage) (n : string) (v : JsValue) :
  has n s = Ok false s ->
  exists s',
    add n v s = Ok tt s' /\
    has n s' = Ok true s' /\
    fetch n s' = Ok (DataBase.mk (priv_id s) n v) s' /\
    priv_id s' = (priv_id s + 1)%Z /\
    (n <> "" -> fetchByID (priv_id s) s' = Ok (DataBase.mk (priv_id s) n v) s').
Proof.
  intros Hhas.
  assert (Hh : Map_has n (priv_DB s) = false)
    by (unfold has, bind, this, ret in Hhas; congruence).
  exists (inserted n v s). split; [now apply add_absent|].
  assert (Hg : Map_get n (priv_DB (inserted n v s)) = Some (DataBase.mk (priv_id s) n v))
    by (unfold inserted; simpl; apply Map_get_set_eq).
  split; [|split; [|split]].
  - unfold has, bind, this, ret. f_equal. apply Map_has_true. eauto.
  - unfold fetch, bind, this, ret. now rewrite Hg.
  - apply inserted_id.
  - intros Hne. unfold fetchByID. unfold bind at 1. unfold this at 1.
    rewrite inserted_IDMap, Map_get_set_eq, (truthy_name_nonempty _ Hne).
    unfold fetch, bind, this, ret. now rewrite Hg.
Qed.

Lemma add_then_lookup_witness :
  exists s',
    add "c" (JNum 3) store_a_b = Ok tt s' /\
    has "c" s' = Ok true s' /\
    fetch "c" s' = Ok (DataBase.mk 2 "c" (JNum 3)) s' /\
    fetchByID 2 s' = Ok (DataBase.mk 2 "c" (JNum 3)) s'.
Proof.
  destruct (add_then_lookup store_a_b "c" (JNum 3)) as (s' & Ha & Hh & Hf & _ & Hi).
  - reflexivity.
  - exists s'. repeat split; try assumption. apply Hi. discriminate.
Defined.

(** X2: [ensure] does to the instance exactly what [add] does, whether the
    name is new or not; when it returns, the entry it returns is the one
    [fetch] then finds under that name, and its id is the value the counter
    had. *)
Theorem ensure_is_add_with_result (s : Stowrage) (n : string) (v : JsValue) :
  final (ensure n v s) = final (add n v s) /\
  (forall e s', ensure n v s = Ok e s' ->
     add n v s = Ok tt s' /\
     fetch n s' = Ok e s' /\
     e = DataBase.mk (priv_id s) n v).
Proof.
  destruct (Map_has n (priv_DB s)) eqn:Hh.
  - rewrite ensure_present, add_present by assumption. split; [reflexivity|].
    intros e s' Hens. discriminate.
  - rewrite ensure_absent, add_absent by assumption. split; [reflexivity|].
    intros e s' Hens. injection Hens as <- <-.
    split; [reflexivity|]. split; [apply fetch_inserted | reflexivity].
Qed.

Lemma ensure_is_add_with_result_witness :
  ensure "c" (JNum 3) store_a_b =
    Ok (DataBase.mk 2 "c" (JNum 3)) (final (add "c" (JNum 3) store_a_b)) /\
  add "c" (JNum 3) store_a_b = Ok tt (final (add "c" (JNum 3) store_a_b)).
Proof.
  assert (He : ensure "c" (JNum 3) store_a_b =
               Ok (DataBase.mk 2 "c" (JNum 3)) (final (add "c" (JNum 3) store_a_b)))
    by (vm_compute; reflexivity).
  split; [exact He|].
  exact (proj1 (proj2 (ensure_is_add_with_result store_a_b "c" (JNum 3)) _ _ He)).
Defined.

(** ** Delete *)

(** X3: [delete] of a name that is in the store returns normally;
    afterwards [has] is false for it, [fetch] throws NameNotFoundError,
    [fetchByID] of the id it had throws IDNotFoundError, every other name
    and every other id lead where they led, and the counter is untouched
    (the id is not given out again). *)
Theorem delete_then_absent (s : Stowrage) (n : string) (e : DataBase.t) :
  fetch n s = Ok e s ->
  exists s',
    delete n s = Ok tt s' /\
    has n s' = Ok false s' /\
    fetch n s' = Throw (NameNotFoundError n) s' /\
    fetchByID (DataBase.id e) s' = Throw (IDNotFoundError (Some (DataBase.id e))) s' /\
    (forall n', n' <> n -> Map_get n' (priv_DB s') = Map_get n' (priv_DB s)) /\
    (forall i, i <> DataBase.id e -> Map_get i (priv_IDMap s') = Map_get i (priv_IDMap s)) /\
    priv_id s' = priv_id s.
Proof.
  intros Hf.
  assert (Hg : Map_get n (priv_DB s) = Some e).
  { unfold fetch, bind, this, ret, throw in Hf.
    destruct (Map_get n (priv_DB s)); congruence. }
  eexists. split; [apply (delete_present _ _ _ Hg)|].
  unfold has, fetch, fetchByID, bind, this, ret, throw.
  autorewrite with stow_fields. simpl.
  unfold Map_has. rewrite !Map_get_delete_eq. simpl.
  repeat split.
  - intros n' Hne. apply Map_get_delete_neq. congruence.
  - intros i Hne. apply Map_get_delete_neq. congruence.
Qed.

Lemma delete_then_absent_witness :
  exists s',
    delete "a" store_a_b = Ok tt s' /\
    has "a" s' = Ok false s' /\
    fetchByID 0 s' = Throw (IDNotFoundError (Some 0%Z)) s' /\
    Map_get "b" (priv_DB s') = Some (DataBase.mk 1 "b" (JNum 2)).
Proof.
  destruct (delete_then_absent store_a_b "a" (DataBase.mk 0 "a" (JNum 1)))
    as (s' & Hd & Hh & _ & Hi & Hother & _).
  - reflexivity.
  - exists s'. split; [exact Hd|]. split; [exact Hh|]. split; [exact Hi|].
    rewrite Hother by discriminate. reflexivity.
Defined.

(** ** The methods keyed by id *)

(** X4: when the id index maps an id to a name that is not the empty
    string, the methods keyed by the id do what the methods keyed by that
    name do: [fetchByID] is [fetch], [overrideByID] is [override],
    [setValue] by the id is [setValue] by the name, and, when the entry
    under the name carries that id, [deleteByID] is [delete]. *)
Theorem by_id_is_by_name (s : Stowrage) (i : Z) (n : string) :
  Map_get i (priv_IDMap s) = Some n ->
  n <> "" ->
  fetchByID i s = fetch n s /\
  (forall v, overrideByID i v s = override n v s) /\
  (forall o, setValue (inr i) o s = setValue (inl n) o s) /\
  (forall e, Map_get n (priv_DB s) = Some e -> DataBase.id e = i ->
             deleteByID i s = delete n s).
Proof.
  intros Hi Hne.
  assert (Ht : truthy_name (Map_get i (priv_IDMap s)) = Some n)
    by (rewrite Hi; now apply truthy_name_nonempty).
  split; [|split; [|split]].
  - unfold fetchByID. unfold bind at 1. unfold this at 1. now rewrite Ht.
  - intros v. unfold overrideByID. unfold bind at 1. unfold this at 1. now rewrite Ht.
  - intros o. unfold setValue, bind, this. now rewrite Hi.
  - intros e He Hid. rewrite (deleteByID_found _ _ _ Ht), (delete_present _ _ _ He), Hid.
    reflexivity.
Qed.

Lemma by_id_is_by_name_witness :
  fetchByID 1 store_a_b = fetch "b" store_a_b /\
  deleteByID 1 store_a_b = delete "b" store_a_b /\
  overrideByID 1 (JNum 9) store_a_b = override "b" (JNum 9) store_a_b.
Proof.
  destruct (by_id_is_by_name store_a_b 1%Z "b") as (Hf & Ho & _ & Hd).
  - reflexivity.
  - discriminate.
  - split; [exact Hf|]. split; [|apply Ho].
    apply (Hd (DataBase.mk 1 "b" (JNum 2))); reflexivity.
Defined.

(** X5: an entry whose name is the empty string cannot be reached through
    its id.  When the id index maps an id to "", [fetchByID], [deleteByID]
    and [overrideByID] throw IDNotFoundError with that id and [setValue],
    by the id or by the name "", throws NameNotFoundError(""); the instance
    is left as it was. *)
Theorem empty_name_not_reached_by_id (s : Stowrage) (i : Z) :
  Map_get i (priv_IDMap s) = Some "" ->
  fetchByID i s = Throw (IDNotFoundError (Some i)) s /\
  deleteByID i s = Throw (IDNotFoundError (Some i)) s /\
  (forall v, overrideByID i v s = Throw (IDNotFoundError (Some i)) s) /\
  (forall o, setValue (inr i) o s = Throw (NameNotFoundError "") s) /\
  (forall o, setValue (inl "") o s = Throw (NameNotFoundError "") s).
Proof.
  intros Hi.
  split; [|split; [|split; [|split]]].
  - unfold fetchByID, bind, this, throw. now rewrite Hi.
  - apply deleteByID_not_found. now rewrite Hi.
  - intros v. unfold overrideByID, bind, this, throw. now rewrite Hi.
  - intros o. now apply setValue_resolves_empty.
  - intros o. now apply setValue_resolves_empty.
Qed.

(** [add("", 1)] succeeds and [fetch("")] finds the entry, with id 0; by
    that id it is not found. *)
Lemma empty_name_not_reached_by_id_witness :
  fetch "" store_empty_name = Ok (DataBase.mk 0 "" (JNum 1)) store_empty_name /\
  fetchByID 0 store_empty_name = Throw (IDNotFoundError (Some 0%Z)) store_empty_name /\
  deleteByID 0 store_empty_name = Throw (IDNotFoundError (Some 0%Z)) store_empty_name.
Proof.
  split; [reflexivity|].
  destruct (empty_name_not_reached_by_id store_empty_name 0%Z) as (Hf & Hd & _).
  - reflexivity.
  - split; assumption.
Defined.

(** ** Keys that are absent *)

(** X6: on a name that is not in the name index, [fetch], [delete] and
    [override] throw NameNotFoundError carrying the name; on an id that is
    not in the id index, [fetchByID], [deleteByID] and [overrideByID] throw
    IDNotFoundError carrying the id.  None of them writes anything: the
    instance, mirror included, is the one they were called on. *)
Theorem not_found_changes_nothing (s : Stowrage) (n : string) (i : Z) :
  has n s = Ok false s ->
  Map_get i (priv_IDMap s) = None ->
  fetch n s = Throw (NameNotFoundError n) s /\
  delete n s = Throw (NameNotFoundError n) s /\
  (forall v, override n v s = Throw (NameNotFoundError n) s) /\
  fetchByID i s = Throw (IDNotFoundError (Some i)) s /\
  deleteByID i s = Throw (IDNotFoundError (Some i)) s /\
  (forall v, overrideByID i v s = Throw (IDNotFoundError (Some i)) s).
Proof.
  intros Hhas Hi.
  assert (Hh : Map_has n (priv_DB s) = false)
    by (unfold has, bind, this, ret in Hhas; congruence).
  assert (Hg : Map_get n (priv_DB s) = None) by now apply Map_has_false.
  split; [|split; [|split; [|split; [|split]]]].
  - unfold fetch, bind, this, throw. now rewrite Hg.
  - now apply delete_absent.
  - intros v. now apply override_absent.
  - unfold fetchByID, bind, this, throw. now rewrite Hi.
  - apply deleteByID_not_found. now rewrite Hi.
  - intros v. unfold overrideByID, bind, this, throw. now rewrite Hi.
Qed.

Lemma not_found_changes_nothing_witness :
  delete "ghost" store_a_b = Throw (NameNotFoundError "ghost") store_a_b /\
  deleteByID 7 store_a_b = Throw (IDNotFoundError (Some 7%Z)) store_a_b.
Proof.
  destruct (not_found_changes_nothing store_a_b "ghost" 7%Z) as (_ & Hd & _ & _ & Hi & _).
  - reflexivity.
  - reflexivity.
  - split; assumption.
Defined.

(** ** The two indices agree when no cap is set *)

Lemma fetch_Ok_get n e s s' : fetch n s = Ok e s' -> Map_get n (priv_DB s) = Some e /\ s' = s.
Proof.
  unfold fetch, bind, this, ret, throw.
  destruct (Map_get n (priv_DB s)); [|discriminate]. intros [= -> ->]. auto.
Qed.

Lemma get_fetch_Ok n e s : Map_get n (priv_DB s) = Some e -> fetch n s = Ok e s.
Proof. intros Hg. unfold fetch, bind, this, ret. now rewrite Hg. Qed.

Lemma fetchByID_Ok_get i e s s' :
  fetchByID i s = Ok e s' ->
  exists n, Map_get i (priv_IDMap s) = Some n /\ n <> "" /\
            Map_get n (priv_DB s) = Some e /\ s' = s.
Proof.
  unfold fetchByID. unfold bind at 1. unfold this at 1.
  destruct (truthy_name _) as [n|] eqn:Ht; [|discriminate].
  apply truthy_name_Some in Ht as [Hi Hne]. intros Hf.
  apply fetch_Ok_get in Hf as [Hg ->]. eauto.
Qed.

(** X7: in a store built without a cap ([maxEntries] unset or 0), after any
    sequence of calls the two indices have the same size and lead to each
    other: the entry [fetch] finds under a (non-empty) name is the one
    [fetchByID] finds under its id, and the entry [fetchByID] finds under
    an id carries that id and is the one [fetch] finds under its name. *)
Theorem indices_agree_without_cap (options : option StowrageOptions) (cs : list Call) :
  truthy_number (maxEntries (new_Stowrage options)) = false ->
  let s := perform_all cs (new_Stowrage options) in
  Map_size (priv_DB s) = Map_size (priv_IDMap s) /\
  (forall n e, fetch n s = Ok e s -> n <> "" -> fetchByID (DataBase.id e) s = Ok e s) /\
  (forall i e, fetchByID i s = Ok e s ->
               DataBase.id e = i /\ fetch (DataBase.name e) s = Ok e s).
Proof.
  intros Hcap s.
  destruct (indices_paired_without_cap options cs Hcap) as [Hp Hsize].
  fold s in Hp, Hsize.
  assert (HI : Inv s) by (apply reachable_Inv, reachable_perform_all, reachable_new).
  split; [exact Hsize|]. split.
  - intros n e Hf Hne. apply fetch_Ok_get in Hf as [Hg _].
    pose proof (paired_name_id _ _ _ Hp _ _ Hg) as Hi.
    unfold fetchByID. unfold bind at 1. unfold this at 1.
    rewrite Hi, (truthy_name_nonempty _ Hne). now apply get_fetch_Ok.
  - intros i e Hf. apply fetchByID_Ok_get in Hf as (n & Hi & Hne & Hg & _).
    destruct (paired_id_name _ _ _ Hp _ _ Hi) as (e' & Hg' & Hid).
    assert (e' = e) by congruence. subst e'.
    split; [exact Hid|].
    rewrite (Inv_names_get _ _ _ HI Hg). now apply get_fetch_Ok.
Qed.

Lemma indices_agree_without_cap_witness :
  Map_size (priv_DB store_c_only) = Map_size (priv_IDMap store_c_only) /\
  fetchByID 2 store_c_only = Ok (DataBase.mk 2 "c" (JNum 3)) store_c_only.
Proof.
  unfold store_c_only, plain_store.
  destruct (indices_agree_without_cap None
              [call_add "a" (JNum 1); call_add "b" (JNum 2); call_add "c" (JNum 3);
               call_delete "a"; call_delete "b"]) as (Hsize & Hname & _).
  - reflexivity.
  - split; [exact Hsize|].
    apply (Hname "c" (DataBase.mk 2 "c" (JNum 3))); [vm_compute; reflexivity | discriminate].
Defined.

(** ** Ids are not given out twice *)

Section JsMapMore.
Context {K V : Type} `{JsKey K}.
Implicit Types (k : K) (v : V) (m : JsMap K V).

Lemma Map_get_set_Some k k' v v' m :
  Map_get k' (Map_set k v m) = Some v' ->
  (k' = k /\ v' = v) \/ Map_get k' m = Some v'.
Proof.
  destruct (key_eqb_spec k k') as [<-|Hne].
  - rewrite Map_get_set_eq. intros [= <-]. auto.
  - rewrite Map_get_set_neq by assumption. auto.
Qed.

Lemma Map_get_delete_Some k k' v' m :
  Map_get k' (Map_delete k m) = Some v' -> Map_get k' m = Some v'.
Proof.
  destruct (key_eqb_spec k k') as [<-|Hne].
  - now rewrite Map_get_delete_eq.
  - now rewrite Map_get_delete_neq by assumption.
Qed.
End JsMapMore.

Lemma ids_below_fields s s' :
  priv_DB s' = priv_DB s -> priv_IDMap s' = priv_IDMap s -> priv_id s' = priv_id s ->
  ids_below s -> ids_below s'.
Proof. unfold ids_below. intros -> -> ->. auto. Qed.

Lemma cap_check_DB_cases s :
  priv_DB (cap_check s) = priv_DB s \/
  exists n, priv_DB (cap_check s) = Map_delete n (priv_DB s).
Proof.
  unfold cap_check. destruct (maxEntries s) as [max|]; [|now left].
  destruct (_ && _); [|now left].
  autorewrite with stow_fields. destruct (truthy_name _) as [n|]; simpl; eauto.
Qed.

Lemma inserted_ids_below n v s : ids_below s -> ids_below (inserted n v s).
Proof.
  intros [Hids Hdb]. split.
  - intros i m. rewrite inserted_IDMap, inserted_id. intros Hg.
    apply Map_get_set_Some in Hg as [[-> _]|Hg]; [lia|]. apply Hids in Hg. lia.
  - intros m e. rewrite inserted_id. unfold inserted. simpl. intros Hg.
    apply Map_get_set_Some in Hg as [[_ ->]|Hg]; [simpl; lia|].
    assert (Hold : Map_get m (priv_DB s) = Some e).
    { unfold counted in Hg.
      destruct (cap_check_DB_cases
                  (after_mirror
                     (sql_insert {| row_id := priv_id s; row_name := n;
                                    row_data := JSON_stringify v |})
                     (set_id (priv_id s + 1) s))) as [Heq|[n' Heq]];
        rewrite Heq in Hg; autorewrite with stow_fields in Hg; simpl in Hg.
      - exact Hg.
      - now apply Map_get_delete_Some in Hg. }
    apply Hdb in Hold. lia.
Qed.

Lemma add_ids_below n v s : ids_below s -> ids_below (final (add n v s)).
Proof.
  intros Hs. destruct (Map_has n (priv_DB s)) eqn:Hh.
  - now rewrite add_present.
  - rewrite add_absent by assumption. now apply inserted_ids_below.
Qed.

Lemma ensure_ids_below n v s : ids_below s -> ids_below (final (ensure n v s)).
Proof.
  intros Hs. destruct (Map_has n (priv_DB s)) eqn:Hh.
  - now rewrite ensure_present.
  - rewrite ensure_absent by assumption. now apply inserted_ids_below.
Qed.

Lemma replay_ids_below rows : forall s, ids_below s -> ids_below (final (replay rows s)).
Proof.
  induction rows as [|[n d] rows IH]; intros s Hs; simpl; [assumption|].
  unfold bind. pose proof (add_ids_below n (JSON_parse d) s Hs) as Hadd.
  destruct (add n (JSON_parse d) s) as [[] s'|err s']; simpl in *; auto.
Qed.

Lemma init_ids_below file s : ids_below s -> ids_below (final (init file s)).
Proof.
  intros Hs. unfold init. unfold bind at 1. unfold this at 1.
  destruct (_ && _); [|assumption].
  unfold bind, modify. apply replay_ids_below.
  revert Hs. now apply ids_below_fields.
Qed.

Lemma ids_below_removed n i s :
  ids_below s ->
  ids_below (set_IDMap (Map_delete i (priv_IDMap s)) (set_DB (Map_delete n (priv_DB s)) s)).
Proof.
  intros [Hids Hdb]. split; simpl.
  - intros i' m Hg. apply Map_get_delete_Some in Hg. eauto.
  - intros m e Hg. apply Map_get_delete_Some in Hg. eauto.
Qed.

Lemma delete_ids_below n s : ids_below s -> ids_below (final (delete n s)).
Proof.
  intros Hs. destruct (Map_get n (priv_DB s)) as [e|] eqn:Hg.
  - rewrite (delete_present _ _ _ Hg). simpl.
    eapply ids_below_fields; [| | |apply (ids_below_removed n (DataBase.id e) s Hs)];
      now autorewrite with stow_fields.
  - now rewrite delete_absent.
Qed.

Lemma deleteByID_ids_below i s : ids_below s -> ids_below (final (deleteByID i s)).
Proof.
  intros Hs. destruct (truthy_name (Map_get i (priv_IDMap s))) as [n|] eqn:Hg.
  - rewrite (deleteByID_found _ _ _ Hg). simpl.
    eapply ids_below_fields; [| | |apply (ids_below_removed n i s Hs)];
      now autorewrite with stow_fields.
  - now rewrite deleteByID_not_found.
Qed.

Lemma ids_below_cleared q s :
  ids_below (after_mirror q (set_id 0 (set_IDMap [] (set_DB [] s)))).
Proof. split; autorewrite with stow_fields; simpl; discriminate. Qed.

Lemma deleteByRange_ids_below start length s :
  Inv s -> ids_below s -> ids_below (final (deleteByRange start length s)).
Proof.
  intros HI [Hids Hdb].
  destruct (Z_lt_ge_dec (start + length) (Map_size (priv_DB s))) as [Hlt|Hge].
  - rewrite deleteByRange_filter_run by (try assumption; apply HI).
    split; simpl; autorewrite with stow_fields; simpl.
    + intros i n. rewrite Map_get_filter by apply HI.
      destruct (Map_get i (priv_IDMap s)) as [n0|] eqn:Hg; [|discriminate].
      intros _. eauto.
    + intros n e. rewrite Map_get_filter by apply HI.
      destruct (Map_get n (priv_DB s)) as [e0|] eqn:Hg; [|discriminate].
      destruct (outside_range _ _ _); [|discriminate]. intros [= <-]. eauto.
  - rewrite deleteByRange_clear_run by assumption. apply ids_below_cleared.
Qed.

Lemma deleteStowrage_ids_below s : ids_below (final (deleteStowrage s)).
Proof. rewrite deleteStowrage_run. apply ids_below_cleared. Qed.

Lemma ids_below_replaced n e e' s :
  ids_below s -> Map_get n (priv_DB s) = Some e -> DataBase.id e' = DataBase.id e ->
  ids_below (set_DB (Map_set n e' (priv_DB s)) s).
Proof.
  intros [Hids Hdb] Hg Hid. split; simpl; [exact Hids|].
  intros m e0 Hg0. apply Map_get_set_Some in Hg0 as [[-> ->]|Hg0]; [|eauto].
  rewrite Hid. eauto.
Qed.

Lemma override_ids_below n v s : ids_below s -> ids_below (final (override n v s)).
Proof.
  intros Hs. destruct (Map_get n (priv_DB s)) as [e|] eqn:Hg.
  - rewrite (override_present _ _ _ _ Hg). simpl.
    eapply ids_below_fields;
      [| | |apply (ids_below_replaced n e (DataBase.mk (DataBase.id e) n v) s Hs Hg eq_refl)];
      now autorewrite with stow_fields.
  - rewrite override_absent by now apply Map_has_false. assumption.
Qed.

Lemma overrideByID_ids_below i v s : ids_below s -> ids_below (final (overrideByID i v s)).
Proof.
  intros Hs. unfold overrideByID. unfold bind at 1. unfold this at 1.
  destruct (truthy_name _); [now apply override_ids_below | assumption].
Qed.

Lemma setValue_ids_below nameID o s : ids_below s -> ids_below (final (setValue nameID o s)).
Proof.
  intros Hs.
  destruct (setValue_outcome nameID o s) as [[err ->]|(n & e & d & Hg & ->)]; [assumption|].
  simpl. unfold rewritten.
  pose proof (ids_below_replaced n e (DataBase.mk (DataBase.id e) (DataBase.name e) d) s
                Hs Hg eq_refl) as H1.
  pose proof (ids_below_replaced n _ (DataBase.mk (DataBase.id e) n d) _ H1
                (Map_get_set_eq _ _ _) eq_refl) as H2.
  eapply ids_below_fields; [| | |exact H2]; now autorewrite with stow_fields.
Qed.

Lemma close_ids_below s : ids_below s -> ids_below (final (close s)).
Proof.
  intros Hs. unfold close, bind, this. destruct (priv_SQLDB s); assumption.
Qed.

Lemma perform_ids_below c s : Inv s -> ids_below s -> ids_below (perform c s).
Proof.
  intros HI Hs. destruct c; simpl.
  - now apply init_ids_below.
  - now apply ensure_ids_below.
  - now apply add_ids_below.
  - now apply delete_ids_below.
  - now apply deleteByID_ids_below.
  - now apply deleteByRange_ids_below.
  - now apply override_ids_below.
  - now apply overrideByID_ids_below.
  - now apply setValue_ids_below.
  - apply deleteStowrage_ids_below.
  - now apply close_ids_below.
Qed.

Lemma reachable_ids_below s : reachable s -> ids_below s.
Proof.
  induction 1 as [options|c s Hr IH].
  - split; simpl; discriminate.
  - apply perform_ids_below; [now apply reachable_Inv | assumption].
Qed.

(** X8: in every store a program can reach, capped or not, the id [ensure]
    gives to a new entry is the value of the counter, and no entry of
    either index uses it: ids are not given out twice (the counter only
    goes back when the store is cleared, and then both indices are
    empty). *)
Theorem ensure_id_is_unused (s s' : Stowrage) (n : string) (v : JsValue) (e : DataBase.t) :
  reachable s ->
  ensure n v s = Ok e s' ->
  DataBase.id e = priv_id s /\
  Map_get (DataBase.id e) (priv_IDMap s) = None /\
  (forall n' e', fetch n' s = Ok e' s -> DataBase.id e' <> DataBase.id e).
Proof.
  intros Hr Hens. destruct (reachable_ids_below s Hr) as [Hids Hdb].
  assert (He : e = DataBase.mk (priv_id s) n v).
  { destruct (Map_has n (priv_DB s)) eqn:Hh.
    - rewrite ensure_present in Hens by assumption. discriminate.
    - rewrite ensure_absent in Hens by assumption. congruence. }
  subst e. simpl. split; [reflexivity|]. split.
  - destruct (Map_get (priv_id s) (priv_IDMap s)) as [m|] eqn:Hg; [|reflexivity].
    apply Hids in Hg. lia.
  - intros n' e' Hf. apply fetch_Ok_get in Hf as [Hg _]. apply Hdb in Hg. lia.
Qed.

Lemma ensure_id_is_unused_witness :
  Map_get 2%Z (priv_IDMap store_a_b) = None /\
  (forall n' e', fetch n' store_a_b = Ok e' store_a_b -> DataBase.id e' <> 2%Z).
Proof.
  assert (Hr : reachable store_a_b) by apply reachable_perform_all, reachable_new.
  assert (He : ensure "c" (JNum 3) store_a_b =
               Ok (DataBase.mk 2 "c" (JNum 3)) (final (add "c" (JNum 3) store_a_b)))
    by (vm_compute; reflexivity).
  destruct (ensure_id_is_unused _ _ _ _ _ Hr He) as (_ & Hid & Hdb).
  split; [exact Hid | exact Hdb].
Defined.

(** ** filter and find *)

Lemma find_is_first_of_filter {A : Type} (f : A -> bool) (l : list A) :
  List.find f l = hd_error (List.filter f l).
Proof.
  induction l as [|a l IH]; simpl; [reflexivity|].
  destruct (f a); [reflexivity | exact IH].
Qed.

(** In a reachable store the entries are exactly what [fetch] returns. *)
Lemma In_values_fetch s e :
  Inv s -> (In e (Map_values (priv_DB s)) <-> fetch (DataBase.name e) s = Ok e s).
Proof.
  intros HI. split.
  - unfold Map_values. rewrite in_map_iff. intros [[n e'] [He Hin]]. simpl in He. subst e'.
    pose proof (Inv_names s HI) as Hnames. rewrite Forall_forall in Hnames.
    pose proof (Hnames _ Hin) as Hn. simpl in Hn. rewrite Hn.
    apply get_fetch_Ok. apply In_Map_get; [apply HI | assumption].
  - intros Hf. apply fetch_Ok_get in Hf as [Hg _]. apply Map_get_In in Hg.
    unfold Map_values. change e with (snd (DataBase.name e, e)). now apply in_map.
Qed.

(** X9: in every reachable store, [filter(func)] returns exactly the
    entries that [func] accepts and that [fetch] finds under their own name,
    [find(func)] returns the first element of that list ([undefined] when
    it is empty), and neither call changes the instance. *)
Theorem filter_and_find (s : Stowrage) (func : DataBase.t -> bool) :
  reachable s ->
  exists l,
    filter func s = Ok l s /\
    find func s = Ok (hd_error l) s /\
    (forall e, In e l <-> func e = true /\ fetch (DataBase.name e) s = Ok e s).
Proof.
  intros Hr. pose proof (reachable_Inv s Hr) as HI.
  exists (List.filter func (Map_values (priv_DB s))).
  split; [reflexivity|]. split.
  - unfold find, bind, this, ret. now rewrite find_is_first_of_filter.
  - intros e. rewrite filter_In, (In_values_fetch s e HI). tauto.
Qed.

Lemma filter_and_find_witness :
  filter (fun e => (DataBase.id e >=? 1)%Z) store_a_b =
    Ok [DataBase.mk 1 "b" (JNum 2)] store_a_b /\
  find (fun e => (DataBase.id e >=? 1)%Z) store_a_b =
    Ok (Some (DataBase.mk 1 "b" (JNum 2))) store_a_b /\
  find (fun e => (DataBase.id e >=? 5)%Z) store_a_b = Ok None store_a_b.
Proof.
  assert (Hr : reachable store_a_b) by apply reachable_perform_all, reachable_new.
  destruct (filter_and_find store_a_b (fun e => (DataBase.id e >=? 1)%Z) Hr)
    as (l & Hfilter & Hfind & _).
  destruct (filter_and_find store_a_b (fun e => (DataBase.id e >=? 5)%Z) Hr)
    as (l' & Hfilter' & Hfind' & _).
  assert (Hl : l = [DataBase.mk 1 "b" (JNum 2)])
    by (vm_compute in Hfilter; congruence).
  assert (Hl' : l' = []) by (vm_compute in Hfilter'; congruence).
  subst l l'. repeat split; assumption.
Defined.

(** ** Ranges *)

(** X10: in every reachable store, when [start + length] is below the
    number of entries [fetchByRange] returns exactly the entries whose id
    lies in the half-open range from [start] to [start + length]; and
    whatever [start] and [length] are, every entry that
    [fetchByRange(start, length)] returns is gone from the name index after
    [deleteByRange(start, length)] (whose range also takes in
    [start + length] itself). *)
Theorem fetchByRange_then_deleteByRange (s : Stowrage) (start length : Z) :
  reachable s ->
  exists l,
    fetchByRange start length s = Ok l s /\
    ((start + length < Map_size (priv_DB s))%Z ->
       forall e, In e l <->
                 fetch (DataBase.name e) s = Ok e s /\
                 (start <= DataBase.id e < start + length)%Z) /\
    (forall e, In e l ->
       has (DataBase.name e) (final (deleteByRange start length s)) =
         Ok false (final (deleteByRange start length s))).
Proof.
  intros Hr. pose proof (reachable_Inv s Hr) as HI.
  destruct (Z_lt_ge_dec (start + length) (Map_size (priv_DB s))) as [Hlt|Hge].
  - assert (Hb : (start + length >=? Map_size (priv_DB s))%Z = false)
      by (rewrite Z.geb_leb; apply Z.leb_gt; lia).
    eexists. split; [unfold fetchByRange, bind, this, ret; rewrite Hb; reflexivity|].
    assert (Hin : forall e,
               In e (List.filter
                       (fun data => (DataBase.id data >=? start)%Z
                                    && (DataBase.id data <? start + length)%Z)
                       (Map_values (priv_DB s))) <->
               fetch (DataBase.name e) s = Ok e s /\
               (start <= DataBase.id e < start + length)%Z).
    { intros e. rewrite filter_In, (In_values_fetch s e HI), andb_true_iff.
      rewrite Z.geb_leb, Z.leb_le, Z.ltb_lt. tauto. }
    split; [intros _; exact Hin|].
    intros e He. apply Hin in He as [Hf Hrange]. apply fetch_Ok_get in Hf as [Hg _].
    rewrite deleteByRange_filter_run by (try assumption; apply HI).
    unfold has, bind, this, ret. simpl. autorewrite with stow_fields. simpl.
    f_equal. apply Map_has_false. rewrite Map_get_filter by apply HI. rewrite Hg. simpl.
    assert (Ho : outside_range start (start + length) (DataBase.id e) = false).
    { unfold outside_range. apply orb_false_iff. rewrite Z.ltb_ge, Z.gtb_ltb, Z.ltb_ge. lia. }
    now rewrite Ho.
  - assert (Hb : (start + length >=? Map_size (priv_DB s))%Z = true)
      by (rewrite Z.geb_leb; apply Z.leb_le; lia).
    eexists. split; [unfold fetchByRange, bind, this, ret; rewrite Hb; reflexivity|].
    split; [intros Hlt; lia|].
    intros e _. rewrite deleteByRange_clear_run by assumption.
    unfold has, bind, this, ret. simpl. now autorewrite with stow_fields.
Qed.

Lemma fetchByRange_then_deleteByRange_witness :
  fetchByRange 0 1 store_a_b = Ok [DataBase.mk 0 "a" (JNum 1)] store_a_b /\
  has "a" (final (deleteByRange 0 1 store_a_b)) = Ok false (final (deleteByRange 0 1 store_a_b)).
Proof.
  assert (Hr : reachable store_a_b) by apply reachable_perform_all, reachable_new.
  destruct (fetchByRange_then_deleteByRange store_a_b 0 1 Hr) as (l & Hf & _ & Hgone).
  assert (Hl : l = [DataBase.mk 0 "a" (JNum 1)]) by (vm_compute in Hf; congruence).
  subst l. split; [exact Hf|].
  apply (Hgone (DataBase.mk 0 "a" (JNum 1))). simpl. auto.
Defined.

(** ** Clearing the store *)

(** X11: [deleteStowrage] always returns normally and leaves nothing:
    [totalEntries] is 0, [has] is false for every name, [fetchByID] throws
    for every id, the counter is 0.  It is the call
    [deleteByRange(start, length)] for any [start + length] that is at
    least the number of entries: the two leave the same instance, mirror
    included. *)
Theorem deleteStowrage_leaves_nothing (s : Stowrage) :
  exists s',
    deleteStowrage s = Ok tt s' /\
    totalEntries s' = Ok 0%Z s' /\
    (forall n, has n s' = Ok false s') /\
    (forall i, fetchByID i s' = Throw (IDNotFoundError (Some i)) s') /\
    priv_id s' = 0%Z /\
    (forall start length,
        (start + length >= Map_size (priv_DB s))%Z ->
        deleteByRange start length s = deleteStowrage s).
Proof.
  eexists. split; [apply deleteStowrage_run|].
  unfold totalEntries, has, fetchByID, bind, this, ret, throw.
  autorewrite with stow_fields. simpl.
  repeat split.
  intros start length Hge. now rewrite deleteByRange_clear_run, deleteStowrage_run.
Qed.

Lemma deleteStowrage_leaves_nothing_witness :
  deleteByRange 1 1 store_a_b = deleteStowrage store_a_b /\
  totalEntries (final (deleteStowrage store_a_b)) = Ok 0%Z (final (deleteStowrage store_a_b)).
Proof.
  destruct (deleteStowrage_leaves_nothing store_a_b) as (s' & Hrun & Htotal & _ & _ & _ & Hsame).
  split.
  - apply Hsame. vm_compute. discriminate.
  - rewrite Hrun. exact Htotal.
Defined.

(** ** What override and setValue never touch *)

Lemma same_shape_refl s : same_shape s s.
Proof. unfold same_shape. repeat split; eauto. Qed.

Lemma same_shape_replaced n e e' s :
  Map_get n (priv_DB s) = Some e -> DataBase.id e' = DataBase.id e ->
  same_shape s (set_DB (Map_set n e' (priv_DB s)) s).
Proof.
  intros Hg Hid. unfold same_shape. simpl. repeat split.
  - apply Map_keys_set_present. apply Map_has_true. eauto.
  - intros m e0 Hg0. apply Map_get_set_Some in Hg0 as [[-> ->]|Hg0]; eauto.
Qed.

Lemma same_shape_trans s1 s2 s3 : same_shape s1 s2 -> same_shape s2 s3 -> same_shape s1 s3.
Proof.
  intros (Hk & He & Hi & Hc) (Hk' & He' & Hi' & Hc'). unfold same_shape.
  repeat split; try congruence.
  intros n e3 Hg3. destruct (He' _ _ Hg3) as (e2 & Hg2 & Hid2).
  destruct (He _ _ Hg2) as (e1 & Hg1 & Hid1). exists e1. split; congruence.
Qed.

Lemma same_shape_fields s s1 s2 :
  priv_DB s2 = priv_DB s1 -> priv_IDMap s2 = priv_IDMap s1 -> priv_id s2 = priv_id s1 ->
  same_shape s s1 -> same_shape s s2.
Proof. unfold same_shape. intros -> -> ->. auto. Qed.

Lemma override_same_shape n v s : same_shape s (final (override n v s)).
Proof.
  destruct (Map_get n (priv_DB s)) as [e|] eqn:Hg.
  - rewrite (override_present _ _ _ _ Hg). simpl.
    eapply same_shape_fields;
      [| | |apply (same_shape_replaced n e (DataBase.mk (DataBase.id e) n v) s Hg eq_refl)];
      now autorewrite with stow_fields.
  - rewrite override_absent by now apply Map_has_false. apply same_shape_refl.
Qed.

(** X12: however they end, [override], [overrideByID] and [setValue] never
    add or remove an entry and never renumber one: afterwards the name
    index has the same names in the same order, each entry has the id it
    had, and the id index and the counter are untouched. *)
Theorem rewriting_keeps_shape (s : Stowrage) :
  (forall n v, same_shape s (final (override n v s))) /\
  (forall i v, same_shape s (final (overrideByID i v s))) /\
  (forall nameID o, same_shape s (final (setValue nameID o s))).
Proof.
  split; [|split].
  - intros n v. apply override_same_shape.
  - intros i v. unfold overrideByID. unfold bind at 1. unfold this at 1.
    destruct (truthy_name _); [apply override_same_shape | apply same_shape_refl].
  - intros nameID o.
    destruct (setValue_outcome nameID o s) as [[err ->]|(n & e & d & Hg & ->)];
      [apply same_shape_refl|].
    simpl. unfold rewritten.
    pose proof (same_shape_replaced n e (DataBase.mk (DataBase.id e) (DataBase.name e) d) s
                  Hg eq_refl) as H1.
    pose proof (same_shape_replaced n
                  (DataBase.mk (DataBase.id e) (DataBase.name e) d)
                  (DataBase.mk (DataBase.id e) n d)
                  (set_DB (Map_set n (DataBase.mk (DataBase.id e) (DataBase.name e) d)
                             (priv_DB s)) s)
                  (Map_get_set_eq _ _ _) eq_refl) as H2.
    eapply same_shape_fields; [| | |exact (same_shape_trans _ _ _ H1 H2)];
      now autorewrite with stow_fields.
Qed.

(** ** init and close *)

Lemma after_mirror_handle q s : priv_SQLDB s <> None -> priv_SQLDB (after_mirror q s) <> None.
Proof.
  unfold after_mirror, mirror, bind, this, when, modify, ret.
  destruct (priv_SQLDB s) eqn:Hs; [|congruence].
  destruct (truthy_boolean (isPersistent s)); simpl; intros _; [discriminate|].
  now rewrite Hs.
Qed.

Lemma cap_check_handle s : priv_SQLDB s <> None -> priv_SQLDB (cap_check s) <> None.
Proof.
  intros Hs. unfold cap_check. destruct (maxEntries s); [|assumption].
  destruct (_ && _); [|assumption].
  apply after_mirror_handle. destruct (truthy_name _); assumption.
Qed.

Lemma add_handle n v s : priv_SQLDB s <> None -> priv_SQLDB (final (add n v s)) <> None.
Proof.
  intros Hs. destruct (Map_has n (priv_DB s)) eqn:Hh.
  - now rewrite add_present.
  - rewrite add_absent by assumption. unfold inserted, counted. simpl.
    apply cap_check_handle, after_mirror_handle. assumption.
Qed.

Lemma replay_handle rows : forall s,
  priv_SQLDB s <> None -> priv_SQLDB (final (replay rows s)) <> None.
Proof.
  induction rows as [|[n d] rows IH]; intros s Hs; simpl; [assumption|].
  unfold bind. pose proof (add_handle n (JSON_parse d) s Hs) as Hadd.
  destruct (add n (JSON_parse d) s) as [[] s'|err s']; simpl in *; auto.
Qed.

(** X13: [init] on an instance whose name is unset or empty, or whose
    [isPersistent] is not true, throws nonPersistentError with the name (or
    "unnamed db") and "initiated", and [close] on an instance that holds no
    handle throws it with "closed"; both leave the instance as it was.  On
    a named persistent instance [init] opens the handle, and whether its
    replay then returns or throws, [close] afterwards returns normally. *)
Theorem init_and_close_errors (s : Stowrage) (file : Table) :
  (truthy_string (name s) && truthy_boolean (isPersistent s) = false ->
     init file s = Throw (nonPersistentError (name_or_unnamed s) "initiated") s) /\
  (priv_SQLDB s = None ->
     close s = Throw (nonPersistentError (name_or_unnamed s) "closed") s) /\
  (truthy_string (name s) && truthy_boolean (isPersistent s) = true ->
     close (final (init file s)) = Ok tt (final (init file s))).
Proof.
  split; [|split].
  - intros Hoff. unfold init, bind, this, throw. now rewrite Hoff.
  - intros Hnone. unfold close, bind, this, throw. now rewrite Hnone.
  - intros Hon.
    assert (Hh : priv_SQLDB (final (init file s)) <> None).
    { unfold init. unfold bind at 1. unfold this at 1. rewrite Hon.
      unfold bind, modify. apply replay_handle. simpl. discriminate. }
    unfold close, bind, this, ret.
    destruct (priv_SQLDB (final (init file s))); [reflexivity | congruence].
Qed.

Lemma init_and_close_errors_witness :
  init [] plain_store = Throw (nonPersistentError "unnamed db" "initiated") plain_store /\
  close plain_store = Throw (nonPersistentError "unnamed db" "closed") plain_store /\
  close (final (init [] (persistent_store "s"))) = Ok tt (final (init [] (persistent_store "s"))).
Proof.
  split; [|split].
  - apply (proj1 (init_and_close_errors plain_store [])). reflexivity.
  - apply (proj1 (proj2 (init_and_close_errors plain_store []))). reflexivity.
  - apply (proj2 (proj2 (init_and_close_errors (persistent_store "s") []))). reflexivity.
Defined.

(** ** Writing to the mirror and reading it back *)

Lemma after_mirror_SQLDB_on q s t :
  priv_SQLDB s = Some t -> truthy_boolean (isPersistent s) = true ->
  priv_SQLDB (after_mirror q s) = Some (q t).
Proof.
  intros Hs Hp. unfold after_mirror, mirror, bind, this, when, modify, ret.
  now rewrite Hs, Hp.
Qed.

Lemma cap_check_no_cap s : truthy_number (maxEntries s) = false -> cap_check s = s.
Proof.
  intros Hcap. unfold cap_check. destruct (maxEntries s) as [max|]; [|reflexivity].
  now rewrite Hcap.
Qed.

Lemma inserted_isPersistent n v s : isPersistent (inserted n v s) = isPersistent s.
Proof.
  unfold inserted, counted. simpl.
  rewrite (proj2 (proj2 (proj2 (proj2 (cap_check_fields _))))).
  now autorewrite with stow_fields.
Qed.

Lemma inserted_SQLDB n v s t :
  priv_SQLDB s = Some t -> truthy_boolean (isPersistent s) = true ->
  truthy_number (maxEntries s) = false ->
  priv_SQLDB (inserted n v s) =
    Some (sql_insert {| row_id := priv_id s; row_name := n; row_data := JSON_stringify v |} t).
Proof.
  intros Hs Hp Hcap. unfold inserted, counted. simpl.
  rewrite cap_check_no_cap by now autorewrite with stow_fields.
  now apply after_mirror_SQLDB_on.
Qed.

Lemma inserted_get_other n v s n' :
  truthy_number (maxEntries s) = false -> n' <> n ->
  Map_get n' (priv_DB (inserted n v s)) = Map_get n' (priv_DB s).
Proof.
  intros Hcap Hne. rewrite inserted_DB_within by now apply no_cap_within.
  apply Map_get_set_neq. congruence.
Qed.

Lemma add_all_cons n v rest s :
  add_all ((n, v) :: rest) s = add_all rest (final (add n v s)).
Proof. reflexivity. Qed.

(** On an open persistent store without a cap, adding new distinct names
    appends one row each, numbered from the counter. *)
Lemma add_all_file entries : forall s t,
  priv_SQLDB s = Some t -> truthy_boolean (isPersistent s) = true ->
  truthy_number (maxEntries s) = false ->
  NoDup (map fst entries) ->
  (forall n, In n (map fst entries) -> Map_get n (priv_DB s) = None) ->
  priv_SQLDB (add_all entries s) = Some (t ++ rows_of (priv_id s) entries)%list.
Proof.
  induction entries as [|[n v] rest IH]; intros s t Hs Hp Hcap Hnd Hnew.
  - unfold add_all. simpl. now rewrite app_nil_r.
  - simpl in Hnd. inversion Hnd as [|? ? Hnotin Hnd']; subst.
    rewrite add_all_cons, add_absent by (apply Map_has_false, Hnew; simpl; auto).
    simpl final.
    rewrite (IH _ (sql_insert {| row_id := priv_id s; row_name := n;
                                 row_data := JSON_stringify v |} t)).
    + rewrite inserted_id. unfold sql_insert. rewrite <- app_assoc. reflexivity.
    + now apply inserted_SQLDB.
    + now rewrite inserted_isPersistent.
    + now rewrite inserted_maxEntries.
    + assumption.
    + intros n' Hin. rewrite inserted_get_other; [apply Hnew; simpl; auto | assumption |].
      intros ->. contradiction.
Qed.

(** The replay of the rows of stable values is the sequence of adds. *)
Lemma replay_rows_of entries : forall k s,
  truthy_number (maxEntries s) = false ->
  NoDup (map fst entries) ->
  Forall json_stable (map snd entries) ->
  (forall n, In n (map fst entries) -> Map_get n (priv_DB s) = None) ->
  replay (sql_select_name_data (rows_of k entries)) s = Ok tt (add_all entries s).
Proof.
  induction entries as [|[n v] rest IH]; intros k s Hcap Hnd Hst Hnew.
  - reflexivity.
  - simpl in Hnd, Hst. inversion Hnd as [|? ? Hnotin Hnd']; subst.
    inversion Hst as [|? ? Hv Hst']; subst.
    simpl. unfold bind. rewrite Hv.
    rewrite add_all_cons, add_absent by (apply Map_has_false, Hnew; simpl; auto).
    simpl final. apply IH; auto.
    + now rewrite inserted_maxEntries.
    + intros n' Hin. rewrite inserted_get_other; [apply Hnew; simpl; auto | assumption |].
      intros ->. contradiction.
Qed.

(** Without a cap, what a sequence of adds leaves in memory depends only on
    what was in memory, not on the mirror. *)
Lemma add_all_memory entries : forall s s',
  truthy_number (maxEntries s) = false -> truthy_number (maxEntries s') = false ->
  priv_DB s' = priv_DB s -> priv_IDMap s' = priv_IDMap s -> priv_id s' = priv_id s ->
  priv_DB (add_all entries s') = priv_DB (add_all entries s) /\
  priv_IDMap (add_all entries s') = priv_IDMap (add_all entries s) /\
  priv_id (add_all entries s') = priv_id (add_all entries s).
Proof.
  induction entries as [|[n v] rest IH]; intros s s' Hcap Hcap' HD HI Hi.
  - unfold add_all. simpl. auto.
  - rewrite !add_all_cons. destruct (Map_has n (priv_DB s)) eqn:Hh.
    + rewrite !add_present by congruence. simpl. now apply IH.
    + rewrite !add_absent by congruence. simpl. apply IH.
      * now rewrite inserted_maxEntries.
      * now rewrite inserted_maxEntries.
      * rewrite !inserted_DB_within by now apply no_cap_within. congruence.
      * rewrite !inserted_IDMap. congruence.
      * rewrite !inserted_id. congruence.
Qed.

(** Without a cap, a name that is in the store stays in it through adds,
    and every name added is in it afterwards. *)
Lemma add_all_has entries : forall s n,
  truthy_number (maxEntries s) = false ->
  Map_has n (priv_DB s) = true \/ In n (map fst entries) ->
  Map_has n (priv_DB (add_all entries s)) = true.
Proof.
  induction entries as [|[m v] rest IH]; intros s n Hcap Hn.
  - unfold add_all. simpl in *. tauto.
  - rewrite add_all_cons. destruct (Map_has m (priv_DB s)) eqn:Hh.
    + rewrite add_present by assumption. simpl. apply IH; [assumption|].
      destruct Hn as [Hn|[<-|Hn]]; auto.
    + rewrite add_absent by assumption. simpl. apply IH; [now rewrite inserted_maxEntries|].
      rewrite inserted_DB_within by now apply no_cap_within.
      destruct (String.eqb_spec m n) as [->|Hne].
      * left. apply Map_has_true. eexists. apply Map_get_set_eq.
      * destruct Hn as [Hn|[Heq|Hn]]; [left|contradiction|now right].
        unfold Map_has in *. now rewrite Map_get_set_neq.
Qed.

Lemma replay_app rows1 rows2 s :
  replay (rows1 ++ rows2)%list s =
    match replay rows1 s with
    | Ok _ s' => replay rows2 s'
    | Throw e s' => Throw e s'
    end.
Proof.
  revert s. induction rows1 as [|[n d] rows1 IH]; intros s; simpl; [reflexivity|].
  unfold bind. destruct (add n (JSON_parse d) s) as [[] s'|err s']; [apply IH | reflexivity].
Qed.

Lemma init_persistent nm file :
  nm <> "" ->
  init file (persistent_store nm) =
    replay (sql_select_name_data file) (set_SQLDB (Some file) (persistent_store nm)).
Proof.
  intros Hne. unfold init. unfold bind at 1. unfold this at 1.
  change (name (persistent_store nm)) with (Some nm).
  rewrite (truthy_string_nonempty _ Hne). reflexivity.
Qed.

Lemma adds_file_rows (nm : string) (entries : list (string * JsValue)) :
  nm <> "" ->
  NoDup (map fst entries) ->
  file_of (add_all entries (final (init [] (persistent_store nm)))) = rows_of 0 entries.
Proof.
  intros Hne Hnd.
  rewrite init_persistent by assumption. simpl final.
  unfold file_of. rewrite (add_all_file entries _ []); auto.
Qed.

(** X14: the round trip the mirror does give.  On a new file, a named
    persistent store without a cap is initialised and distinct names are
    added with values that JSON keeps; the file then holds one row per
    entry, in order, with the entry's id; after [close], [init] on a fresh
    instance of the same name leaves a store with the same name index, the
    same id index and the same counter. *)
Theorem reopen_after_adds (nm : string) (entries : list (string * JsValue)) :
  nm <> "" ->
  NoDup (map fst entries) ->
  Forall json_stable (map snd entries) ->
  let s1 := add_all entries (final (init [] (persistent_store nm))) in
  let s2 := final (init (file_of (final (close s1))) (persistent_store nm)) in
  file_of s1 = rows_of 0 entries /\
  priv_DB s2 = priv_DB s1 /\
  priv_IDMap s2 = priv_IDMap s1 /\
  priv_id s2 = priv_id s1.
Proof.
  intros Hne Hnd Hst s1 s2.
  assert (H0 : final (init [] (persistent_store nm)) =
               set_SQLDB (Some []) (persistent_store nm))
    by (rewrite init_persistent by assumption; reflexivity).
  assert (Hfile : priv_SQLDB s1 = Some (rows_of 0 entries)).
  { unfold s1. rewrite H0.
    rewrite (add_all_file entries _ []); auto. }
  assert (Hclose : final (close s1) = s1).
  { unfold close, bind, this. now rewrite Hfile. }
  assert (Hf1 : file_of s1 = rows_of 0 entries) by (unfold file_of; now rewrite Hfile).
  split; [exact Hf1|].
  unfold s2. rewrite Hclose, Hf1, init_persistent by assumption.
  rewrite replay_rows_of by auto. simpl final.
  unfold s1. rewrite H0. apply add_all_memory; reflexivity.
Qed.

Lemma reopen_after_adds_witness :
  let s2 := final (init (file_of (final (close session_adds))) (persistent_store "s")) in
  priv_DB s2 = [("a", DataBase.mk 0 "a" (JNum 1)); ("b", DataBase.mk 1 "b" (JNum 2))] /\
  priv_IDMap s2 = [(0%Z, "a"); (1%Z, "b")] /\
  priv_id s2 = 2%Z.
Proof.
  destruct (reopen_after_adds "s" [("a", JNum 1); ("b", JNum 2)]) as (_ & HD & HI & Hi).
  - discriminate.
  - repeat constructor; simpl; intuition discriminate.
  - repeat constructor.
  - intros s2. unfold s2. unfold session_adds.
    split; [etransitivity; [exact HD | vm_compute; reflexivity]|].
    split; [etransitivity; [exact HI | vm_compute; reflexivity]|].
    etransitivity; [exact Hi | vm_compute; reflexivity].
Defined.

(** X15: the replay of [init] goes through [add] while the handle is open,
    so it inserts every row it reads once more.  In the setting of X14 with
    at least one entry, after the reopening the file holds its rows twice,
    and [init] on a further fresh instance throws NameDuplicationError for
    the first name. *)
Theorem reopen_writes_rows_again (nm n0 : string) (v0 : JsValue)
    (rest : list (string * JsValue)) :
  nm <> "" ->
  NoDup (n0 :: map fst rest) ->
  Forall json_stable (v0 :: map snd rest) ->
  let s1 := add_all ((n0, v0) :: rest) (final (init [] (persistent_store nm))) in
  let s2 := final (init (file_of s1) (persistent_store nm)) in
  file_of s2 = (file_of s1 ++ file_of s1)%list /\
  exists s3, init (file_of s2) (persistent_store nm) = Throw (NameDuplicationError n0) s3.
Proof.
  intros Hne Hnd Hst s1 s2. set (entries := (n0, v0) :: rest) in *.
  assert (Hf1 : file_of s1 = rows_of 0 entries)
    by (apply (adds_file_rows nm entries); assumption).
  set (sA := set_SQLDB (Some (rows_of 0 entries)) (persistent_store nm)).
  assert (Hs2 : s2 = add_all entries sA).
  { unfold s2. rewrite Hf1, init_persistent by assumption.
    rewrite replay_rows_of; auto. }
  assert (Hf2 : file_of s2 = (rows_of 0 entries ++ rows_of 0 entries)%list).
  { rewrite Hs2. unfold file_of.
    rewrite (add_all_file entries sA (rows_of 0 entries)); auto. }
  split; [now rewrite Hf2, Hf1|].
  rewrite Hf2, init_persistent by assumption.
  set (sB := set_SQLDB (Some (rows_of 0 entries ++ rows_of 0 entries)%list)
               (persistent_store nm)).
  unfold sql_select_name_data. rewrite map_app, replay_app.
  change (map (fun r => (row_name r, row_data r)) (rows_of 0 entries))
    with (sql_select_name_data (rows_of 0 entries)).
  rewrite replay_rows_of; auto.
  unfold entries at 1. simpl. unfold bind.
  rewrite add_present.
  - eexists. reflexivity.
  - apply add_all_has; [reflexivity|]. right. simpl. auto.
Qed.

Lemma reopen_writes_rows_again_witness :
  file_of (final (init (file_of session_adds) (persistent_store "s"))) =
    (file_of session_adds ++ file_of session_adds)%list /\
  exists s3,
    init (file_of (final (init (file_of session_adds) (persistent_store "s"))))
      (persistent_store "s") = Throw (NameDuplicationError "a") s3.
Proof.
  assert (Hs : session_adds =
               add_all [("a", JNum 1); ("b", JNum 2)] (final (init [] (persistent_store "s"))))
    by reflexivity.
  rewrite Hs.
  apply (reopen_writes_rows_again "s" "a" (JNum 1) [("b", JNum 2)]).
  - discriminate.
  - repeat constructor; simpl; intuition discriminate.
  - repeat constructor.
Defined.

(** ** Counting *)

Section JsMapSize.
Context {K V : Type} `{JsKey K}.
Implicit Types (k : K) (v : V) (m : JsMap K V).

Lemma Map_delete_absent k m : Map_get k m = None -> Map_delete k m = m.
Proof.
  unfold Map_delete. induction m as [|[k0 v0] m IH]; simpl; [reflexivity|].
  destruct (key_eqb_spec k k0) as [->|Hne]; [discriminate|].
  intros Hg. simpl. now rewrite IH.
Qed.

Lemma Map_length_delete_present k v m :
  NoDup (Map_keys m) -> Map_get k m = Some v ->
  S (List.length (Map_delete k m)) = List.length m.
Proof.
  induction m as [|[k0 v0] m IH]; simpl; [discriminate|].
  intros Hnd. inversion Hnd as [|? ? Hnotin Hnd']; subst.
  destruct (key_eqb_spec k k0) as [->|Hne]; simpl.
  - intros _. fold (Map_delete k0 m).
    now rewrite Map_delete_absent by now apply Map_get_None_keys.
  - intros Hg. f_equal. now apply IH.
Qed.

Lemma Map_size_delete_present k v m :
  NoDup (Map_keys m) -> Map_get k m = Some v ->
  Map_size (Map_delete k m) = (Map_size m - 1)%Z.
Proof.
  intros Hnd Hg. unfold Map_size.
  rewrite <- (Map_length_delete_present k v m Hnd Hg), Nat2Z.inj_succ. lia.
Qed.
End JsMapSize.

(** X16: an insert that evicts nothing.  When no cap is set, or the store
    holds at most [maxEntries] entries before the call, [add] of a new name
    leaves every entry that was there where it was and [totalEntries] grows
    by exactly one. *)
Theorem add_keeps_the_rest (s : Stowrage) (n : string) (v : JsValue) :
  (forall max, maxEntries s = Some max -> max <> 0%Z -> (Map_size (priv_DB s) <= max)%Z) ->
  has n s = Ok false s ->
  exists s',
    add n v s = Ok tt s' /\
    totalEntries s' = Ok (Map_size (priv_DB s) + 1)%Z s' /\
    (forall n' e, fetch n' s = Ok e s -> fetch n' s' = Ok e s').
Proof.
  intros Hw Hhas.
  assert (Hh : Map_has n (priv_DB s) = false)
    by (unfold has, bind, this, ret in Hhas; congruence).
  assert (Hg : Map_get n (priv_DB s) = None) by now apply Map_has_false.
  exists (inserted n v s). split; [now apply add_absent|].
  rewrite totalEntries_run, inserted_DB_within, Map_size_set_fresh by assumption.
  split; [reflexivity|].
  intros n' e Hf. apply fetch_Ok_get in Hf as [Hg' _]. apply get_fetch_Ok.
  rewrite inserted_DB_within by assumption. rewrite Map_get_set_neq by congruence.
  assumption.
Qed.

Lemma add_keeps_the_rest_witness :
  exists s',
    add "c" (JNum 3) store_a_b = Ok tt s' /\
    totalEntries s' = Ok 3%Z s' /\
    fetch "a" s' = Ok (DataBase.mk 0 "a" (JNum 1)) s'.
Proof.
  destruct (add_keeps_the_rest store_a_b "c" (JNum 3)) as (s' & Ha & Ht & Hk).
  - intros max Hm. discriminate.
  - reflexivity.
  - exists s'. split; [exact Ha|]. split; [exact Ht|]. apply Hk. reflexivity.
Defined.

(** X17: in every reachable store [delete] of a name that is there removes
    exactly one entry: [totalEntries] goes down by one. *)
Theorem delete_removes_one (s : Stowrage) (n : string) (e : DataBase.t) :
  reachable s ->
  fetch n s = Ok e s ->
  totalEntries (final (delete n s)) =
    Ok (Map_size (priv_DB s) - 1)%Z (final (delete n s)).
Proof.
  intros Hr Hf. apply fetch_Ok_get in Hf as [Hg _].
  rewrite totalEntries_run, (delete_present _ _ _ Hg). simpl.
  autorewrite with stow_fields. simpl.
  rewrite (Map_size_delete_present n e); [reflexivity | apply reachable_Inv, Hr | assumption].
Qed.

Lemma delete_removes_one_witness :
  totalEntries (final (delete "a" store_a_b)) = Ok 1%Z (final (delete "a" store_a_b)).
Proof.
  apply (delete_removes_one store_a_b "a" (DataBase.mk 0 "a" (JNum 1))).
  - apply reachable_perform_all, reachable_new.
  - reflexivity.
Defined.

(** ** init numbers the entries itself *)

Lemma replay_numbers rows : forall s,
  truthy_number (maxEntries s) = false ->
  NoDup (map row_name rows) ->
  (forall r, In r rows -> Map_get (row_name r) (priv_DB s) = None) ->
  exists s',
    replay (sql_select_name_data rows) s = Ok tt s' /\
    Map_size (priv_DB s') = (Map_size (priv_DB s) + Z.of_nat (List.length rows))%Z /\
    (forall n e, Map_get n (priv_DB s) = Some e -> Map_get n (priv_DB s') = Some e) /\
    (forall k row, nth_error rows k = Some row ->
       Map_get (row_name row) (priv_DB s') =
         Some (DataBase.mk (priv_id s + Z.of_nat k) (row_name row) (JSON_parse (row_data row)))).
Proof.
  induction rows as [|r rest IH]; intros s Hcap Hnd Hnew.
  - exists s. split; [reflexivity|]. split; [simpl; lia|]. split; [auto|].
    intros [|k] row; discriminate.
  - simpl in Hnd. inversion Hnd as [|? ? Hnotin Hnd']; subst.
    assert (Hr : Map_get (row_name r) (priv_DB s) = None) by (apply Hnew; simpl; auto).
    set (s1 := inserted (row_name r) (JSON_parse (row_data r)) s).
    assert (HD1 : priv_DB s1 =
                  Map_set (row_name r)
                    (DataBase.mk (priv_id s) (row_name r) (JSON_parse (row_data r))) (priv_DB s))
      by (apply inserted_DB_within; now apply no_cap_within).
    destruct (IH s1) as (s' & Hrun & Hsize & Hkeep & Hnum).
    + unfold s1. now rewrite inserted_maxEntries.
    + assumption.
    + intros r' Hin. rewrite HD1, Map_get_set_neq; [apply Hnew; simpl; auto|].
      intros Heq. apply Hnotin. rewrite Heq. now apply in_map.
    + exists s'. split; [|split; [|split]].
      * simpl. unfold bind. rewrite add_absent by now apply Map_has_false. exact Hrun.
      * rewrite Hsize, HD1, Map_size_set_fresh by assumption. simpl List.length. lia.
      * intros n e Hg. apply Hkeep. rewrite HD1, Map_get_set_neq; [assumption | congruence].
      * intros [|k] row Hnth; simpl in Hnth.
        -- injection Hnth as <-. apply Hkeep. rewrite HD1, Z.add_0_r. apply Map_get_set_eq.
        -- rewrite (Hnum k row Hnth). unfold s1. rewrite inserted_id.
           do 2 f_equal. lia.
Qed.

(** X18: [init] reads only the name and the data of each row, and numbers
    the entries itself.  On a file whose rows have distinct names, whatever
    ids the rows carry, [init] on a fresh named persistent store leaves one
    entry per row, and the entry of the k-th row (counting from 0) has
    id k. *)
Theorem init_numbers_by_row_order (nm : string) (file : Table) :
  nm <> "" ->
  NoDup (map row_name file) ->
  let s := final (init file (persistent_store nm)) in
  totalEntries s = Ok (Z.of_nat (List.length file)) s /\
  (forall k row, nth_error file k = Some row ->
     fetch (row_name row) s =
       Ok (DataBase.mk (Z.of_nat k) (row_name row) (JSON_parse (row_data row))) s).
Proof.
  intros Hne Hnd s.
  destruct (replay_numbers file (set_SQLDB (Some file) (persistent_store nm)))
    as (s' & Hrun & Hsize & _ & Hnum); auto.
  assert (Hs : s = s') by (unfold s; rewrite init_persistent, Hrun by assumption; reflexivity).
  rewrite Hs. split.
  - rewrite totalEntries_run, Hsize. reflexivity.
  - intros k row Hnth. apply get_fetch_Ok. now rewrite (Hnum k row Hnth).
Qed.

(** A file left by a session that deleted entries: the rows of "b" and "c"
    carry the ids 1 and 5, and the reopened store gives them the ids 0
    and 1. *)
Lemma init_numbers_by_row_order_witness :
  let s := final (init [ {| row_id := 1; row_name := "b"; row_data := SqlJson (JNum 2) |};
                         {| row_id := 5; row_name := "c"; row_data := SqlJson (JNum 3) |} ]
                    (persistent_store "s")) in
  totalEntries s = Ok 2%Z s /\
  fetch "b" s = Ok (DataBase.mk 0 "b" (JNum 2)) s /\
  fetch "c" s = Ok (DataBase.mk 1 "c" (JNum 3)) s.
Proof.
  destruct (init_numbers_by_row_order "s"
              [ {| row_id := 1; row_name := "b"; row_data := SqlJson (JNum 2) |};
                {| row_id := 5; row_name := "c"; row_data := SqlJson (JNum 3) |} ])
    as (Htotal & Hnum).
  - discriminate.
  - repeat constructor; simpl; intuition discriminate.
  - intros s. split; [exact Htotal|]. split.
    + apply (Hnum 0%nat {| row_id := 1; row_name := "b"; row_data := SqlJson (JNum 2) |}).
      reflexivity.
    + apply (Hnum 1%nat {| row_id := 5; row_name := "c"; row_data := SqlJson (JNum 3) |}).
      reflexivity.
Defined.

(** ** The mirror follows adds and deletes *)


Lemma mirrored_fields s s' :
  isPersistent s' = isPersistent s -> priv_SQLDB s' = priv_SQLDB s ->
  priv_DB s' = priv_DB s -> mirrored s -> mirrored s'.
Proof. unfold mirrored. intros -> -> ->. auto. Qed.







(** ** Names *)

(** X20: in every reachable store, capped or not, every entry is filed
    under its own name and no name occurs twice: the entry [fetch] returns
    for a name carries that name, the entries [filter] returns when it
    accepts everything have pairwise distinct names, and [totalEntries] is
    their number. *)
Theorem names_are_keys (s : Stowrage) :
  reachable s ->
  (forall n e, fetch n s = Ok e s -> DataBase.name e = n) /\
  exists l,
    filter (fun _ => true) s = Ok l s /\
    NoDup (map DataBase.name l) /\
    totalEntries s = Ok (Z.of_nat (List.length l)) s.
Proof.
  intros Hr. pose proof (reachable_Inv s Hr) as HI. split.
  - intros n e Hf. apply fetch_Ok_get in Hf as [Hg _]. eapply Inv_names_get; eauto.
  - exists (Map_values (priv_DB s)).
    assert (Hall : List.filter (fun _ : DataBase.t => true) (Map_values (priv_DB s)) =
                   Map_values (priv_DB s)).
    { induction (Map_values (priv_DB s)) as [|e l IH]; simpl; [reflexivity | now rewrite IH]. }
    split; [unfold filter, bind, this, ret; now rewrite Hall|].
    split.
    + assert (Hnames : map DataBase.name (Map_values (priv_DB s)) = Map_keys (priv_DB s)).
      { unfold Map_values, Map_keys. rewrite map_map. apply map_ext_in.
        intros kv Hin. pose proof (Inv_names s HI) as Hf. rewrite Forall_forall in Hf.
        now apply Hf. }
      rewrite Hnames. apply HI.
    + rewrite totalEntries_run. unfold Map_size, Map_values. now rewrite length_map.
Qed.

Lemma names_are_keys_witness :
  (forall n e, fetch n store_a_b = Ok e store_a_b -> DataBase.name e = n) /\
  filter (fun _ => true) store_a_b =
    Ok [DataBase.mk 0 "a" (JNum 1); DataBase.mk 1 "b" (JNum 2)] store_a_b.
Proof.
  destruct (names_are_keys store_a_b) as [Hname _].
  - apply reachable_perform_all, reachable_new.
  - split; [exact Hname | reflexivity].
Defined.
